(** * painted-shared: a model of the helper library and its hooks

    The library is TypeScript: its functions take and return JavaScript
    values.  The development below embeds the part of the language the
    functions touch (primitive values, IEEE-754 numbers, UTF-16 strings,
    a heap of ordinary objects with own data properties and a prototype
    chain, one-shot timers, and the two React primitives [useRef] and
    [useCallback]) and then each library function, line by line.

    Scope of the object model: own data properties, inherited data
    properties, and the one accessor every ordinary object inherits,
    [__proto__] of [Object.prototype].  Other accessor properties,
    non-writable properties, proxies and the properties of function
    objects are not represented. *)

From Stdlib Require Import ZArith Lia String Ascii SpecFloat DecimalString.
From stdpp Require Import base option list gmap.

(** ** Numbers

    A JavaScript number is a binary64 float.  The library only compares
    numbers, so the specification-level floats of the standard library
    carry everything that is needed: signed zeros, infinities and NaN. *)

Definition number : Type := spec_float.

Definition NaN : number := S754_nan.

(** The number denoted by an integer literal. *)
Definition num (z : Z) : number := binary_normalize 53 1024 z 0 false.

Definition num_lt (a b : number) : bool := SFltb a b.   (* a < b *)
Definition num_le (a b : number) : bool := SFleb a b.   (* a <= b *)
Definition num_eq (a b : number) : bool := SFeqb a b.   (* a === b *)

(** [Math.max(a, b)]: NaN if either argument is NaN, and [+0] counts as
    larger than [-0]. *)
Definition Math_max (a b : number) : number :=
  match SFcompare a b with
  | None => NaN
  | Some Lt => b
  | Some Gt => a
  | Some Eq =>
      match a, b with
      | S754_zero sa, S754_zero sb => S754_zero (sa && sb)
      | _, _ => a
      end
  end.

(** [Math.min(a, b)]: NaN if either argument is NaN, and [-0] counts as
    smaller than [+0]. *)
Definition Math_min (a b : number) : number :=
  match SFcompare a b with
  | None => NaN
  | Some Lt => a
  | Some Gt => b
  | Some Eq =>
      match a, b with
      | S754_zero sa, S754_zero sb => S754_zero (sa || sb)
      | _, _ => a
      end
  end.

(** ** Strings, property keys and values *)

(** A string is a sequence of UTF-16 code units. *)
Definition code_unit : Type := N.
Definition jsstring : Type := list code_unit.

(** The string written by an ASCII literal. *)
Definition js (s : string) : jsstring := N_of_ascii <$> list_ascii_of_string s.

Definition loc : Type := positive.
Definition fid : Type := positive.

Inductive value : Type :=
  | VUndefined
  | VNull
  | VBool (b : bool)
  | VNum (n : number)
  | VBigInt (z : Z)
  | VStr (s : jsstring)
  | VSym (id : positive)
  | VFun (f : fid)
  | VObj (l : loc).

Inductive js_type : Type :=
  | TUndefined | TObject | TBoolean | TNumber | TBigInt | TString | TSymbol
  | TFunction.

#[global] Instance js_type_eq_dec : EqDecision js_type.
Proof. solve_decision. Defined.

Definition typeof (v : value) : js_type :=
  match v with
  | VUndefined => TUndefined
  | VNull => TObject
  | VBool _ => TBoolean
  | VNum _ => TNumber
  | VBigInt _ => TBigInt
  | VStr _ => TString
  | VSym _ => TSymbol
  | VFun _ => TFunction
  | VObj _ => TObject
  end.

(** [x === y] *)
Definition strict_equals (x y : value) : bool :=
  match x, y with
  | VUndefined, VUndefined => true
  | VNull, VNull => true
  | VBool a, VBool b => Bool.eqb a b
  | VNum a, VNum b => num_eq a b
  | VBigInt a, VBigInt b => (a =? b)%Z
  | VStr a, VStr b => bool_decide (a = b)
  | VSym a, VSym b => (a =? b)%positive
  | VFun a, VFun b => (a =? b)%positive
  | VObj a, VObj b => (a =? b)%positive
  | _, _ => false
  end.

(** The truthiness of a value, as [!v] and [v ? a : b] test it. *)
Definition ToBoolean (v : value) : bool :=
  match v with
  | VUndefined | VNull => false
  | VBool b => b
  | VNum (S754_zero _) | VNum S754_nan => false
  | VNum _ => true
  | VBigInt z => negb (z =? 0)%Z
  | VStr s => negb (bool_decide (s = []))
  | VSym _ | VFun _ | VObj _ => true
  end.

Inductive key : Type :=
  | KStr (s : jsstring)
  | KSym (id : positive).

#[global] Instance key_eq_dec : EqDecision key.
Proof. solve_decision. Defined.

(** ** Objects and the heap *)

(** An own data property: its value and its [enumerable] attribute. *)
Record prop : Type := Prop_ { p_value : value; p_enumerable : bool }.

(** A property of a prototype, as an object that inherits it meets it:
    a data property with its value, or the accessor [__proto__], whose
    getter returns the prototype of the object it is read on and whose
    setter gives the object it is assigned on another prototype. *)
Inductive inherited : Type :=
  | Data (v : value)
  | ProtoAccessor.

(** One object of a prototype chain, as seen from an object that
    inherits from it: the prototype object itself, as a value, and its
    properties. *)
Record frame : Type :=
  Frame { f_self : value; f_props : list (key * inherited) }.

(** An ordinary object: the array flag that [Array.isArray] reads, the
    prototype chain (nearest prototype first, the empty list for a null
    prototype) and the own properties in the order [Reflect.ownKeys]
    reports them. *)
Record object : Type := Object_
  { o_array : bool; o_proto : list frame; o_props : list (key * prop) }.

Abbreviation heap := (gmap loc object).

(** The built-in prototypes are objects too, and a prototype is a value
    that [__proto__] can return: they have locations of their own, which
    no allocation hands out.  A heap holds them there when the program
    passes them around as values; the library itself reaches them only
    as prototypes, through the frames below. *)
Definition Object_prototype_id : loc := 100%positive.
Definition Array_prototype_id : loc := 101%positive.
Definition Date_prototype_id : loc := 102%positive.

Definition builtin_locations : gset loc :=
  {[ Object_prototype_id; Array_prototype_id; Date_prototype_id ]}.

(** The property key [__proto__]. *)
Definition proto_key : key := KStr (js "__proto__").

(** [Object.prototype]: its methods and the accessor [__proto__]. *)
Definition Object_prototype : frame :=
  Frame (VObj Object_prototype_id)
    [ (KStr (js "constructor"), Data (VFun 1%positive));
      (KStr (js "__defineGetter__"), Data (VFun 21%positive));
      (KStr (js "__defineSetter__"), Data (VFun 22%positive));
      (KStr (js "hasOwnProperty"), Data (VFun 2%positive));
      (KStr (js "__lookupGetter__"), Data (VFun 23%positive));
      (KStr (js "__lookupSetter__"), Data (VFun 24%positive));
      (KStr (js "isPrototypeOf"), Data (VFun 3%positive));
      (KStr (js "propertyIsEnumerable"), Data (VFun 4%positive));
      (KStr (js "toString"), Data (VFun 6%positive));
      (KStr (js "valueOf"), Data (VFun 7%positive));
      (proto_key, ProtoAccessor);
      (KStr (js "toLocaleString"), Data (VFun 5%positive)) ].

(** [Array.prototype], with the methods most in use. *)
Definition Array_prototype : frame :=
  Frame (VObj Array_prototype_id)
    [ (KStr (js "constructor"), Data (VFun 8%positive));
      (KStr (js "concat"), Data (VFun 9%positive));
      (KStr (js "filter"), Data (VFun 10%positive));
      (KStr (js "forEach"), Data (VFun 11%positive));
      (KStr (js "includes"), Data (VFun 12%positive));
      (KStr (js "indexOf"), Data (VFun 13%positive));
      (KStr (js "join"), Data (VFun 14%positive));
      (KStr (js "map"), Data (VFun 15%positive));
      (KStr (js "pop"), Data (VFun 16%positive));
      (KStr (js "push"), Data (VFun 17%positive));
      (KStr (js "reduce"), Data (VFun 18%positive));
      (KStr (js "slice"), Data (VFun 19%positive));
      (KStr (js "some"), Data (VFun 20%positive)) ].

Definition Date_prototype : frame := Frame (VObj Date_prototype_id) [].

(** The object literal [{}]. *)
Definition empty_object : object := Object_ false [Object_prototype] [].

(** The object stored at a location.  A reference always points to an
    allocated object; for a location outside the heap the accessors
    below see an object with no properties and no prototype. *)
Definition obj_at (h : heap) (l : loc) : object :=
  default (Object_ false [] []) (h !! l).

Fixpoint props_get {V : Type} (k : key) (ps : list (key * V)) : option V :=
  match ps with
  | [] => None
  | (k', v) :: ps' => if decide (k = k') then Some v else props_get k ps'
  end.

(** Lookup along the prototype chain: the nearest prototype that has
    the property decides. *)
Fixpoint chain_get (k : key) (chain : list frame) : option inherited :=
  match chain with
  | [] => None
  | f :: chain' =>
      match props_get k (f_props f) with
      | Some v => Some v
      | None => chain_get k chain'
      end
  end.

(** [Object.getPrototypeOf(o)] *)
Definition prototype_of (o : object) : value :=
  match o_proto o with
  | f :: _ => f_self f
  | [] => VNull
  end.

(** The value of own property [k], when the object has one. *)
Definition own_value (o : object) (k : key) : option value :=
  p_value <$> props_get k (o_props o).

(** [[Get]] on an object, the object itself being the receiver. *)
Definition object_get (o : object) (k : key) : value :=
  match own_value o k with
  | Some v => v
  | None =>
      match chain_get k (o_proto o) with
      | Some (Data v) => v
      | Some ProtoAccessor => prototype_of o
      | None => VUndefined
      end
  end.

(** [[HasProperty]] on an object. *)
Definition object_has (o : object) (k : key) : bool :=
  bool_decide (is_Some (own_value o k)) ||
  bool_decide (is_Some (chain_get k (o_proto o))).

(** [Reflect.has(target, key)] and [Reflect.get(target, key, target)]. *)
Definition Reflect_has (h : heap) (target : loc) (k : key) : bool :=
  object_has (obj_at h target) k.

Definition Reflect_get (h : heap) (target : loc) (k : key) : value :=
  object_get (obj_at h target) k.

(** [Reflect.ownKeys(target)]: every own key, strings and symbols,
    enumerable or not. *)
Definition Reflect_ownKeys (h : heap) (target : loc) : list key :=
  (obj_at h target).(o_props).*1.

(** [Object.keys(x)]: the own enumerable string keys. *)
Definition Object_keys (h : heap) (l : loc) : list key :=
  omap (λ kp : key * prop,
          match kp.1 with
          | KStr _ => if p_enumerable kp.2 then Some kp.1 else None
          | KSym _ => None
          end)
       (obj_at h l).(o_props).

(** Writing a data property: an existing own property gets the new
    value and keeps its attributes, a missing one is created enumerable
    at the end. *)
Fixpoint props_assign (k : key) (v : value) (ps : list (key * prop))
  : list (key * prop) :=
  match ps with
  | [] => [(k, Prop_ v true)]
  | (k', p) :: ps' =>
      if decide (k = k') then (k', Prop_ v (p_enumerable p)) :: ps'
      else (k', p) :: props_assign k v ps'
  end.

Definition object_assign (o : object) (k : key) (v : value) : object :=
  Object_ (o_array o) (o_proto o) (props_assign k v (o_props o)).

(** The location of a new object. *)
Definition alloc (h : heap) : loc := fresh (dom h ∪ builtin_locations).

(** ** Validation and type checking *)

(** The [for ... of] loop of [isEquals]: the first key that fails the
    check ends it with [false]. *)
Fixpoint every_key (check : key → option bool) (keys : list key)
  : option bool :=
  match keys with
  | [] => Some true
  | k :: keys' =>
      match check k with
      | None => None
      | Some false => Some false
      | Some true => every_key check keys'
      end
  end.

(** [isEquals], with the depth of the recursion bounded by [fuel]:
    [None] means the bound was reached before an answer. *)
Fixpoint isEquals (fuel : nat) (h : heap) (x y : value) : option bool :=
  match fuel with
  | O => None
  | S fuel' =>
      if strict_equals x y then Some true
      else if negb (bool_decide (typeof x = TObject))
              || negb (bool_decide (typeof y = TObject))
      then Some (if bool_decide (typeof x = typeof y)
                 then strict_equals x y else false)
      else
        match x, y with
        | VObj lx, VObj ly =>
            let xKeys := Object_keys h lx in
            let yKeys := Object_keys h ly in
            if negb (length xKeys =? length yKeys) then Some false
            else
              every_key
                (λ k,
                   if negb (Reflect_has h ly k) then Some false
                   else isEquals fuel' h (Reflect_get h lx k)
                                         (Reflect_get h ly k))
                xKeys
        | _, _ => Some false
        end
  end.

Definition isDef (v : value) : bool :=
  negb (strict_equals v VUndefined || strict_equals v VNull).

Definition isNil (v : value) : bool := strict_equals v VNull.

Definition isUndefined (v : value) : bool :=
  bool_decide (typeof v = TUndefined).

Definition Array_isArray (h : heap) (v : value) : bool :=
  match v with
  | VObj l => o_array (obj_at h l)
  | _ => false
  end.

Definition isObject (h : heap) (v : value) : bool :=
  negb (isNil v) && bool_decide (typeof v = TObject)
  && negb (Array_isArray h v).

(** [Reflect.getPrototypeOf(obj) === Object.prototype] *)
Definition proto_is_Object_prototype (o : object) : bool :=
  match o_proto o with
  | f :: _ => strict_equals (f_self f) (VObj Object_prototype_id)
  | [] => false
  end.

Definition isPlainObject (h : heap) (v : value) : bool :=
  isObject h v &&
  match v with
  | VObj l => proto_is_Object_prototype (obj_at h l)
  | _ => false
  end.

Definition isFunction (v : value) : bool := bool_decide (typeof v = TFunction).

Definition isString (v : value) : bool := bool_decide (typeof v = TString).

(** The code units [String.prototype.trim] strips: the WhiteSpace and
    LineTerminator productions of the language. *)
Definition is_trim_space (c : code_unit) : bool :=
  bool_decide (c ∈ [9; 10; 11; 12; 13; 32; 160; 5760; 8192; 8193; 8194; 8195;
                    8196; 8197; 8198; 8199; 8200; 8201; 8202; 8232; 8233;
                    8239; 8287; 12288; 65279]%N).

Fixpoint trimStart (s : jsstring) : jsstring :=
  match s with
  | [] => []
  | c :: s' => if is_trim_space c then trimStart s' else s
  end.

Definition trimEnd (s : jsstring) : jsstring := rev (trimStart (rev s)).

Definition trim (s : jsstring) : jsstring := trimEnd (trimStart s).

Definition isEmpty (h : heap) (v : value) : bool :=
  if Array_isArray h v then
    match v with
    | VObj l => strict_equals (Reflect_get h l (KStr (js "length"))) (VNum (num 0))
    | _ => false
    end
  else if isPlainObject h v then
    match v with
    | VObj l => length (Object_keys h l) =? 0
    | _ => false
    end
  else if isString v then
    match v with
    | VStr s => length (trim s) =? 0
    | _ => false
    end
  else false.

(** ** Object manipulation *)

(** An element of a key list.  The type of the elements is [keyof O]:
    strings, numbers and symbols. *)
Inductive keyarg : Type :=
  | AStr (s : jsstring)
  | ANum (n : number)
  | ASym (id : positive).

(** A property key, as [Reflect.ownKeys] returns it, in a key list. *)
Definition key_arg (k : key) : keyarg :=
  match k with
  | KStr s => AStr s
  | KSym id => ASym id
  end.

(** SameValueZero, by which [Array.prototype.includes] compares: a
    number is never the same as a string. *)
Definition SameValueZero (a b : keyarg) : bool :=
  match a, b with
  | AStr s, AStr s' => bool_decide (s = s')
  | ANum x, ANum y =>
      num_eq x y || match x, y with S754_nan, S754_nan => true | _, _ => false end
  | ASym i, ASym j => (i =? j)%positive
  | _, _ => false
  end.

(** [keys.includes(searchElement)] *)
Definition includes (keys : list keyarg) (searchElement : keyarg) : bool :=
  existsb (λ a, SameValueZero a searchElement) keys.

Section ObjectManipulation.
(** [Number::toString]: the property key a number stands for. *)
Variable Number_toString : number → jsstring.
(** The prototype chain that starts at a function object, as an object
    that inherits from the function sees it. *)
Variable function_chain : fid → list frame.

(** [ToPropertyKey], applied by [Reflect.has], [Reflect.get] and the
    assignment [value[key] = v] to the key they are given. *)
Definition ToPropertyKey (a : keyarg) : key :=
  match a with
  | AStr s => KStr s
  | ANum n => KStr (Number_toString n)
  | ASym id => KSym id
  end.

(** The prototype chain that starts at [proto], as an object that gets
    [proto] for its prototype sees it. *)
Definition chain_from (h : heap) (proto : value) : list frame :=
  match proto with
  | VObj l =>
      if decide (l = Object_prototype_id) then [Object_prototype]
      else if decide (l = Array_prototype_id)
      then [Array_prototype; Object_prototype]
      else if decide (l = Date_prototype_id)
      then [Date_prototype; Object_prototype]
      else
        Frame proto ((λ kp : key * prop, (kp.1, Data (p_value kp.2)))
                       <$> o_props (obj_at h l))
        :: o_proto (obj_at h l)
  | VFun f => function_chain f
  | _ => []
  end.

(** The assignment [value[key] = v] on an ordinary object.  An own
    property takes the value.  Otherwise the nearest prototype that has
    the property decides: when it is the accessor [__proto__], its
    setter runs, which gives [value] the prototype [v] when [v] is an
    object or [null] and does nothing for any other [v]; in every other
    case a new own property is created.  (The setter refuses a prototype
    that has [value] on its own chain; the accumulator of [pick] is a
    new object, on the chain of nothing.) *)
Definition object_set (h : heap) (o : object) (k : key) (v : value) : object :=
  match own_value o k, chain_get k (o_proto o) with
  | None, Some ProtoAccessor =>
      match v with
      | VObj _ | VFun _ | VNull => Object_ (o_array o) (chain_from h v) (o_props o)
      | _ => o
      end
  | _, _ => object_assign o k v
  end.

Definition heap_set (h : heap) (l : loc) (k : key) (v : value) : heap :=
  <[l := object_set h (obj_at h l) k v]> h.

(** [pick]: the accumulator [{}] is allocated first, then [reduce] walks
    the keys and assigns into it. *)
Definition pick (h : heap) (target : loc) (keys : list keyarg) : heap * loc :=
  let value := alloc h in
  (fold_left
     (λ h' key,
        if Reflect_has h' target (ToPropertyKey key)
        then heap_set h' value (ToPropertyKey key)
                      (Reflect_get h' target (ToPropertyKey key))
        else h')
     keys (<[value := empty_object]> h),
   value).

(** [omit]: the own keys that [keys] does not include are picked. *)
Definition omit (h : heap) (target : loc) (keys : list keyarg) : heap * loc :=
  pick h target
    (key_arg <$> filter (λ key, negb (includes keys (key_arg key)) = true)
                        (Reflect_ownKeys h target)).
End ObjectManipulation.

(** ** Other utilities *)

Definition clamp (min value max : number) : number :=
  Math_min (Math_max value min) max.

(** [pipe]: the function it returns closes over [initialValue]; a call
    of that function either hands the value back (no argument) or
    returns the next function of the chain. *)
Section Pipe.
(** What calling a function value on one argument returns. *)
Variable call : fid → value → value.

Record carrying : Type := Carrying { initialValue : value }.

Inductive pipe_return : Type :=
  | Finished (v : value)
  | Continue (c : carrying).

Definition pipe (initialValue : value) : carrying := Carrying initialValue.

Definition carrying_call (c : carrying) (transformers : list value)
  : pipe_return :=
  match transformers with
  | [] => Finished (initialValue c)
  | t :: _ =>
      if negb (isFunction t) then Continue (pipe (initialValue c))
      else
        match t with
        | VFun f => Continue (pipe (call f (initialValue c)))
        | _ => Continue (pipe (initialValue c))
        end
  end.

(** [pipe(v)(s1)(s2)...(sn)()]: [None] if a call is made on something
    that is not a function. *)
Fixpoint pipe_chain (c : carrying) (steps : list value) : option value :=
  match steps with
  | [] =>
      match carrying_call c [] with
      | Finished v => Some v
      | Continue _ => None
      end
  | s :: steps' =>
      match carrying_call c [s] with
      | Continue c' => pipe_chain c' steps'
      | Finished _ => None
      end
  end.

(** The chain as the glossary words it: keep the function steps, and
    compose them from left to right. *)
Definition function_steps (steps : list value) : list fid :=
  omap (λ s, match s with VFun f => Some f | _ => None end) steps.

Fixpoint compose_left_to_right (fs : list fid) (v : value) : value :=
  match fs with
  | [] => v
  | f :: fs' => compose_left_to_right fs' (call f v)
  end.

(** A step that is [undefined], [null] or [false]. *)
Definition falsy_step (s : value) : bool :=
  match s with
  | VUndefined | VNull | VBool false => true
  | _ => false
  end.
End Pipe.

(** ** Timers

    [window.setTimeout] and [clearTimeout] on a discrete clock in
    milliseconds.  A timer fires exactly when its delay has elapsed, and
    a timer that is due fires before anything else that happens at the
    same instant.  What a callback closes over is the timer's payload;
    running it changes the client's state (the closure variables of the
    function that registered it). *)

(** The conversion of an integer to a signed 32-bit one: modulo 2^32,
    read in two's complement.  It is how a Web IDL [long] argument, the
    delay of [window.setTimeout] among them, takes a number that is out
    of range. *)
Definition ToInt32 (z : Z) : Z := ((z + 2 ^ 31) mod 2 ^ 32 - 2 ^ 31)%Z.

Section EventLoop.
Context {A St : Type}.

(** The body of the callbacks: payload, time of firing, client state. *)
Variable fire : A → Z → St → St.

Record timer : Type := Timer { tm_id : positive; tm_due : Z; tm_payload : A }.

Record loop : Type :=
  Loop { clock : Z; queue : list timer; next_id : positive }.

Definition loop_start : loop := Loop 0 [] 1.

(** [Date.now()] *)
Definition Date_now (w : loop) : Z := clock w.

(** The delay is a [long]: it is converted to a 32-bit signed integer
    ([ToInt32]), and a negative result counts as zero.  The handle is a
    positive integer. *)
Definition setTimeout (payload : A) (delay : Z) (w : loop) : loop * positive :=
  (Loop (clock w)
        (queue w
         ++ [Timer (next_id w) (clock w + Z.max 0 (ToInt32 delay)) payload])
        (Pos.succ (next_id w)),
   next_id w).

Definition clearTimeout (id : positive) (w : loop) : loop :=
  Loop (clock w)
       (filter (λ tm, negb (tm_id tm =? id)%positive = true) (queue w))
       (next_id w).

(** The pending timer that fires next: the earliest due, the one
    registered first among equals. *)
Fixpoint next_due (q : list timer) : option timer :=
  match q with
  | [] => None
  | tm :: q' =>
      match next_due q' with
      | Some tm' => if (tm_due tm' <? tm_due tm)%Z then Some tm' else Some tm
      | None => Some tm
      end
  end.

(** Fire, in order, the timers due no later than [limit] (all of them
    when there is no limit).  No callback of this library registers a
    timer, so [n] firings exhaust a queue of length [n]. *)
Fixpoint run_due (n : nat) (limit : option Z) (w : loop) (s : St)
  : loop * St :=
  match n with
  | O => (w, s)
  | S n' =>
      match next_due (queue w) with
      | None => (w, s)
      | Some tm =>
          if match limit with
             | Some t => (tm_due tm <=? t)%Z
             | None => true
             end
          then
            run_due n' limit
              (clearTimeout (tm_id tm)
                 (Loop (tm_due tm) (queue w) (next_id w)))
              (fire (tm_payload tm) (tm_due tm) s)
          else (w, s)
      end
  end.

(** Let time pass until [t]. *)
Definition advance (t : Z) (w : loop) (s : St) : loop * St :=
  let '(w', s') := run_due (length (queue w)) (Some t) w s in
  (Loop t (queue w') (next_id w'), s').

(** Let time pass until nothing is pending. *)
Definition settle (w : loop) (s : St) : loop * St :=
  run_due (length (queue w)) None w s.
End EventLoop.

Arguments timer : clear implicits.
Arguments loop : clear implicits.

(** One call of a wrapper, or one invocation of the wrapped function:
    when, and with which arguments. *)
Record event : Type := Event { ev_time : Z; ev_args : list value }.

(** Calls arrive in chronological order. *)
Fixpoint chronological (calls : list event) : bool :=
  match calls with
  | [] => true
  | c :: rest =>
      match rest with
      | [] => true
      | c' :: _ => (ev_time c <=? ev_time c')%Z && chronological rest
      end
  end.

(** *** debounce

    The closure variable [timeout], and next to it the invocations of
    [func] observed so far.  [delay] defaults to 500 in the source. *)
Record debounce_closure : Type :=
  DebounceClosure { timeout : option positive; debounce_log : list event }.

Definition debounce : debounce_closure := DebounceClosure None [].

(** The callback [() => { func(...args) }]. *)
Definition debounce_fire (args : list value) (t : Z) (c : debounce_closure)
  : debounce_closure :=
  DebounceClosure (timeout c) (debounce_log c ++ [Event t args]).

(** The function [debounce] returns. *)
Definition debounced (delay : Z) (args : list value)
    (w : loop (list value)) (c : debounce_closure)
  : loop (list value) * debounce_closure :=
  let w1 := match timeout c with
            | Some id => clearTimeout id w
            | None => w
            end in
  let '(w2, id) := setTimeout args delay w1 in
  (w2, DebounceClosure (Some id) (debounce_log c)).

Fixpoint debounce_calls (delay : Z) (calls : list event)
    (w : loop (list value)) (c : debounce_closure)
  : loop (list value) * debounce_closure :=
  match calls with
  | [] => (w, c)
  | call :: rest =>
      let '(w1, c1) := advance debounce_fire (ev_time call) w c in
      let '(w2, c2) := debounced delay (ev_args call) w1 c1 in
      debounce_calls delay rest w2 c2
  end.

(** Every invocation of [func] that a sequence of calls leads to. *)
Definition debounce_run (delay : Z) (calls : list event) : list event :=
  let '(w, c) := debounce_calls delay calls loop_start debounce in
  debounce_log (settle debounce_fire w c).2.

(** The glossary's debounce: a call leads to an invocation when a quiet
    period of [delay] follows it, at the end of that period and with that
    call's arguments. *)
Fixpoint followed_by_quiet (delay : Z) (calls : list event) : list event :=
  match calls with
  | [] => []
  | c :: rest =>
      match rest with
      | [] => [c]
      | c' :: _ =>
          if (ev_time c + delay <=? ev_time c')%Z
          then c :: followed_by_quiet delay rest
          else followed_by_quiet delay rest
      end
  end.

Definition debounce_expected (delay : Z) (calls : list event) : list event :=
  (λ c, Event (ev_time c + delay) (ev_args c)) <$> followed_by_quiet delay calls.

(** Successive calls are all less than [delay] apart. *)
Fixpoint closely_spaced (delay : Z) (calls : list event) : bool :=
  match calls with
  | [] => true
  | c :: rest =>
      match rest with
      | [] => true
      | c' :: _ => (ev_time c' - ev_time c <? delay)%Z && closely_spaced delay rest
      end
  end.

(** *** throttle

    The closure variables [previous] (undefined until the first
    invocation) and [defineTimer], and the invocations of [func]. *)
Record throttle_closure : Type :=
  ThrottleClosure
    { previous : option Z; defineTimer : option positive;
      throttle_log : list event }.

Definition throttle : throttle_closure := ThrottleClosure None None [].

(** The callback [() => { func(...args); previous = now }]: [now] is the
    time of the call that registered the timer. *)
Definition throttle_fire (payload : list value * Z) (t : Z)
    (c : throttle_closure) : throttle_closure :=
  ThrottleClosure (Some payload.2) (defineTimer c)
                  (throttle_log c ++ [Event t payload.1]).

(** [previous && now < previous + delay] *)
Definition within_interval (previous : option Z) (now delay : Z) : bool :=
  match previous with
  | None => false
  | Some p => negb (p =? 0)%Z && (now <? p + delay)%Z
  end.

(** The function [throttle] returns. *)
Definition throttled (delay : Z) (args : list value)
    (w : loop (list value * Z)) (c : throttle_closure)
  : loop (list value * Z) * throttle_closure :=
  let now := Date_now w in
  if within_interval (previous c) now delay then
    let w1 := match defineTimer c with
              | Some id => clearTimeout id w
              | None => w
              end in
    let '(w2, id) := setTimeout (args, now) delay w1 in
    (w2, ThrottleClosure (previous c) (Some id) (throttle_log c))
  else
    (w, ThrottleClosure (Some now) (defineTimer c)
                        (throttle_log c ++ [Event now args])).

Fixpoint throttle_calls (delay : Z) (calls : list event)
    (w : loop (list value * Z)) (c : throttle_closure)
  : loop (list value * Z) * throttle_closure :=
  match calls with
  | [] => (w, c)
  | call :: rest =>
      let '(w1, c1) := advance throttle_fire (ev_time call) w c in
      let '(w2, c2) := throttled delay (ev_args call) w1 c1 in
      throttle_calls delay rest w2 c2
  end.

Definition throttle_run (delay : Z) (calls : list event) : list event :=
  let '(w, c) := throttle_calls delay calls loop_start throttle in
  throttle_log (settle throttle_fire w c).2.

(** Two invocations less than [delay] apart. *)
Definition too_close (delay : Z) (log : list event) : Prop :=
  ∃ i j a b, i < j ∧ log !! i = Some a ∧ log !! j = Some b
             ∧ (Z.abs (ev_time b - ev_time a) < delay)%Z.

(** ** Hooks

    A mounted component instance keeps one slot per hook call, in call
    order.  [useRef] hands out the same ref object on every render of
    the instance; [useCallback] hands out the function it cached for as
    long as the dependencies are the same objects. *)

(** A function object created by evaluating
    [(...args) => ref.current!(...args)]: its identity and the ref it
    closes over. *)
Record closure : Type := Closure { clo_id : positive; clo_ref : positive }.

#[global] Instance closure_eq_dec : EqDecision closure.
Proof. solve_decision. Defined.

Inductive slot : Type :=
  | RefSlot (ref : positive)
  | CallbackSlot (callback : closure) (deps : list positive).

(** The instance: its hook slots, the [current] field of every ref
    object it owns, and the next fresh object identity. *)
Record fiber : Type :=
  Fiber { slots : list slot; refs : gmap positive value; next_alloc : positive }.

Definition fiber_mount : fiber := Fiber [] ∅ 1.

Definition ref_current (fb : fiber) (ref : positive) : value :=
  default VUndefined (refs fb !! ref).

Definition ref_assign (ref : positive) (v : value) (fb : fiber) : fiber :=
  Fiber (slots fb) (<[ref := v]> (refs fb)) (next_alloc fb).

(** [useRef()] as the [i]-th hook of the render. *)
Definition useRef (i : nat) (fb : fiber) : positive * fiber :=
  match slots fb !! i with
  | Some (RefSlot ref) => (ref, fb)
  | _ =>
      let ref := next_alloc fb in
      (ref, Fiber (slots fb ++ [RefSlot ref]) (<[ref := VUndefined]> (refs fb))
                  (Pos.succ ref))
  end.

(** [useCallback(fn, deps)] as the [i]-th hook of the render. *)
Definition useCallback (i : nat) (fn : closure) (deps : list positive)
    (fb : fiber) : closure * fiber :=
  match slots fb !! i with
  | Some (CallbackSlot cached deps0) =>
      if bool_decide (deps = deps0) then (cached, fb)
      else (fn, Fiber (<[i := CallbackSlot fn deps]> (slots fb)) (refs fb)
                      (next_alloc fb))
  | _ =>
      (fn, Fiber (slots fb ++ [CallbackSlot fn deps]) (refs fb) (next_alloc fb))
  end.

(** Evaluating the arrow function allocates a new function object. *)
Definition new_closure (ref : positive) (fb : fiber) : closure * fiber :=
  (Closure (next_alloc fb) ref,
   Fiber (slots fb) (refs fb) (Pos.succ (next_alloc fb))).

(** *** useConstant

    [init] may have effects: [init k] is what its call number [k]
    returns, and the count of calls made so far is threaded along. *)
Definition useConstant (init : nat → value) (st : fiber * nat)
  : value * (fiber * nat) :=
  let '(fb, calls) := st in
  let '(ref, fb1) := useRef 0 fb in
  let '(fb2, calls2) :=
    if negb (ToBoolean (ref_current fb1 ref))
    then (ref_assign ref (init calls) fb1, S calls)
    else (fb1, calls) in
  (ref_current fb2 ref, (fb2, calls2)).

(** [n] renders of one instance: what each returned, and the state. *)
Fixpoint useConstant_renders (init : nat → value) (n : nat) (st : fiber * nat)
  : list value * (fiber * nat) :=
  match n with
  | O => ([], st)
  | S n' =>
      let '(v, st1) := useConstant init st in
      let '(vs, st2) := useConstant_renders init n' st1 in
      (v :: vs, st2)
  end.

(** *** useLatestRef and useLatestFunc *)

Definition useLatestRef (i : nat) (v : value) (fb : fiber) : positive * fiber :=
  let '(ref, fb1) := useRef i fb in
  (ref, ref_assign ref v fb1).

(** The result is the function [apply], or [None] for [void 0]. *)
Definition useLatestFunc (func : value) (fb : fiber) : option closure * fiber :=
  let '(ref, fb1) := useLatestRef 0 func fb in
  let '(fn, fb2) := new_closure ref fb1 in
  let '(apply, fb3) := useCallback 1 fn [ref] fb2 in
  (if ToBoolean (ref_current fb3 ref) then Some apply else None, fb3).

(** What a call [apply(...args)] does: it calls the function held by the
    ref, and throws when the ref holds no function. *)
Inductive call_outcome : Type :=
  | Calls (f : fid) (args : list value)
  | TypeError.

Definition closure_call (fb : fiber) (c : closure) (args : list value)
  : call_outcome :=
  match ref_current fb (clo_ref c) with
  | VFun f => Calls f args
  | _ => TypeError
  end.

(** Successive renders of one instance, one [func] per render. *)
Fixpoint useLatestFunc_renders (funcs : list value) (fb : fiber)
  : list (option closure) * fiber :=
  match funcs with
  | [] => ([], fb)
  | func :: funcs' =>
      let '(r, fb1) := useLatestFunc func fb in
      let '(rs, fb2) := useLatestFunc_renders funcs' fb1 in
      (r :: rs, fb2)
  end.

(** The values the type of [func] admits: a function, or [undefined]. *)
Definition func_or_undefined (v : value) : bool :=
  match v with
  | VFun _ | VUndefined => true
  | _ => false
  end.

(** ** Statements and sample data used by the properties *)

(** Two numbers that are the same up to the sign of zero (SameValueZero:
    [+0] and [-0] agree, NaN agrees with NaN). *)
Definition same_number (a b : number) : bool :=
  num_eq a b ||
  match a, b with S754_nan, S754_nan => true | _, _ => false end.

(** What [clamp] is documented to return: the nearer bound when [value]
    is outside the range, [value] otherwise, and always something in the
    closed range. *)
Definition clamp_contract (min value max : number) : Prop :=
  (num_lt value min = true → same_number (clamp min value max) min = true) ∧
  (num_lt max value = true → same_number (clamp min value max) max = true) ∧
  (num_lt value min = false → num_lt max value = false →
   same_number (clamp min value max) value = true) ∧
  num_le min (clamp min value max) = true ∧
  num_le (clamp min value max) max = true.

(** The outcome of chaining two comparisons, neither of them [Gt]. *)
Definition weakest (c1 c2 : comparison) : comparison :=
  match c1 with Eq => c2 | _ => c1 end.

(** [v] nests objects at most [n] deep: following own properties from
    [v], every path stops within [n] objects.  No bound fits a cycle. *)
Fixpoint nesting_within (n : nat) (h : heap) (v : value) : bool :=
  match n with
  | O => match v with VObj _ => false | _ => true end
  | S n' =>
      match v with
      | VObj l =>
          forallb (λ kp : key * prop, nesting_within n' h (p_value kp.2))
                  (o_props (obj_at h l))
      | _ => true
      end
  end.

(** An enumerable data property, as an object literal creates it. *)
Definition field (name : string) (v : value) : key * prop :=
  (KStr (js name), Prop_ v true).

(** [a = {}; a.self = a; b = {}; b.self = b] at locations 1 and 2. *)
Definition cyclic_heap : heap :=
  {[ 1%positive := Object_ false [Object_prototype] [field "self" (VObj 1%positive)];
     2%positive := Object_ false [Object_prototype] [field "self" (VObj 2%positive)] ]}.

(** [{ v: { a: NaN } }] at location 2, its inner object at location 1,
    and [new Date()] (no own keys) at location 3. *)
Definition nested_heap : heap :=
  {[ 1%positive := Object_ false [Object_prototype] [field "a" (VNum NaN)];
     2%positive := Object_ false [Object_prototype] [field "v" (VObj 1%positive)];
     3%positive := Object_ false [Date_prototype; Object_prototype] [] ]}.

(** What the accumulator of [pick] holds after the walk over the
    property keys [keys], none of them [__proto__], read off the target
    object [o]: every step writes an own data property. *)
Definition pick_fields (o : object) (keys : list key) (value : object) : object :=
  fold_left
    (λ value k,
       if object_has o k then object_assign value k (object_get o k) else value)
    keys value.

(** The own entry for [k] of the object a call returned. *)
Definition own_entry (r : heap * loc) (k : key) : option value :=
  own_value (obj_at r.1 r.2) k.

(** [{ a: 1, b: 2, c: 3 }] at location 1. *)
Definition abc_heap : heap :=
  {[ 1%positive :=
       Object_ false [Object_prototype]
         [field "a" (VNum (num 1)); field "b" (VNum (num 2));
          field "c" (VNum (num 3))] ]}.

(** [{ 1: 'x' }] at location 1. *)
Definition numeric_key_heap : heap :=
  {[ 1%positive := Object_ false [Object_prototype] [field "1" (VStr (js "x"))] ]}.

(** [JSON.parse('{"__proto__": 5, "a": 1}')] at location 1: the key
    [__proto__] is an own data property of it.  [new Date()] at
    location 2. *)
Definition own_proto_heap : heap :=
  {[ 1%positive := Object_ false [Object_prototype]
                     [field "__proto__" (VNum (num 5)); field "a" (VNum (num 1))];
     2%positive := Object_ false [Date_prototype; Object_prototype] [] ]}.

(** A key-list element that is a string or a symbol. *)
Definition is_name (a : keyarg) : bool :=
  match a with
  | ANum _ => false
  | _ => true
  end.

(** The invocations observed when [calls] arrive in the state [(w, c)]
    and time then runs on until nothing is pending. *)
Definition debounce_from (delay : Z) (calls : list event)
    (w : loop (list value)) (c : debounce_closure) : list event :=
  let '(w', c') := debounce_calls delay calls w c in
  debounce_log (settle debounce_fire w' c').2.

(** [() => callCount++]: call number [k] returns [k], so the first
    result is the falsy [0]. *)
Definition counting_init (k : nat) : value := VNum (num (Z.of_nat k)).

(** The function object [useLatestFunc] caches at the first render of an
    instance, the ref it closes over, and the slots of the instance from
    then on. *)
Definition first_apply : closure := Closure 2 1.

Definition latest_slots : list slot :=
  [RefSlot 1; CallbackSlot first_apply [1%positive]].



(** ** The remaining predicates *)

Definition isArray (h : heap) (arg : value) : bool := Array_isArray h arg.

(** [isString(str) && str.length > 0] *)
Definition isNonEmptyString (str : value) : bool :=
  isString str &&
  match str with
  | VStr s => 0 <? length s
  | _ => false
  end.

Definition isSymbol (symbol : value) : bool :=
  bool_decide (typeof symbol = TSymbol).

(** [date instanceof Date]: [Date.prototype] is on the prototype chain. *)
Definition isDate (h : heap) (date : value) : bool :=
  match date with
  | VObj l =>
      existsb (λ f, strict_equals (f_self f) (VObj Date_prototype_id))
              (o_proto (obj_at h l))
  | _ => false
  end.

Definition Number_isNaN (v : value) : bool :=
  match v with
  | VNum S754_nan => true
  | _ => false
  end.

Definition isNumber (num : value) : bool :=
  bool_decide (typeof num = TNumber) && negb (Number_isNaN num).

(** [s.startsWith(searchString)] *)
Fixpoint startsWith (s searchString : jsstring) {struct searchString} : bool :=
  match searchString with
  | [] => true
  | c :: rest =>
      match s with
      | [] => false
      | d :: s' => (c =? d)%N && startsWith s' rest
      end
  end.

Definition isURL (url : jsstring) : bool :=
  existsb (λ str, startsWith url str) [js "http"; js "//"].

(** The predicates that sort a value by its kind. *)
Definition kind_predicates (h : heap) (v : value) : list bool :=
  [isUndefined v; isNil v; isString v; isSymbol v; isFunction v; isNumber v;
   isArray h v; isObject h v].

(** How many of them hold. *)
Definition holding (bs : list bool) : nat :=
  foldr (λ (b : bool) n, if b then S n else n) 0 bs.

(** ** Arrays *)

(** The key of index [i]: its decimal numeral. *)
Definition index_key (i : nat) : key :=
  KStr (js (NilZero.string_of_uint (Nat.to_uint i))).

(** The array literal [[e0, e1, ...]]: one enumerable property per
    index, then the non-enumerable [length]. *)
Definition array_literal (elems : list value) : object :=
  Object_ true [Array_prototype; Object_prototype]
    (imap (λ i v, (index_key i, Prop_ v true)) elems
     ++ [(KStr (js "length"), Prop_ (VNum (num (Z.of_nat (length elems)))) false)]).

(** [wrapArray]: an array argument is handed back as it is, anything
    else goes into a new array, [null] and [undefined] into an empty
    one. *)
Definition wrapArray (h : heap) (val : value) : heap * value :=
  if negb (isDef val) then
    (<[alloc h := array_literal []]> h, VObj (alloc h))
  else if Array_isArray h val then (h, val)
  else (<[alloc h := array_literal [val]]> h, VObj (alloc h)).

(** ** Strings: padding *)

(** [ToLength]: the integer between 0 and [2^53 - 1] that a length
    argument stands for (NaN and negatives count as 0, fractions are cut
    off). *)
Definition ToLength (n : number) : Z :=
  match n with
  | S754_finite false m e =>
      Z.min (2 ^ 53 - 1)
            (if (0 <=? e)%Z then Z.pos m * 2 ^ e else Z.pos m / 2 ^ (- e))
  | S754_infinity false => (2 ^ 53 - 1)%Z
  | _ => 0%Z
  end.

(** [fillString] repeated and cut to [fillLen] code units. *)
Definition truncated_filler (fillString : jsstring) (fillLen : nat) : jsstring :=
  take fillLen (mjoin (replicate fillLen fillString)).

(** What a call of a padding function comes to: the string it returns,
    or the [RangeError] ("Invalid string length") it throws. *)
Inductive pad_result : Type :=
  | Returns (s : jsstring)
  | RangeError.

Section PadString.
(** The longest string the engine builds: a padding that would make a
    longer one throws.  (The language allows 2^53 - 1 code units;
    engines stop much earlier, V8 at 2^29 - 24.) *)
Variable max_string_length : Z.
(** What [String(v)] is for a [v] that is not a string. *)
Variable ToString : value → jsstring.

(** [S.padStart(maxLength, fillString)] and [S.padEnd(maxLength,
    fillString)]. *)
Definition String_pad (at_start : bool) (S : jsstring) (maxLength : number)
    (fillString : jsstring) : pad_result :=
  let intMaxLength := ToLength maxLength in
  let stringLength := Z.of_nat (length S) in
  if (intMaxLength <=? stringLength)%Z then Returns S
  else if bool_decide (fillString = []) then Returns S
  else if (max_string_length <? intMaxLength)%Z then RangeError
  else
    let filler :=
      truncated_filler fillString (Z.to_nat (intMaxLength - stringLength)) in
    Returns (if at_start then filler ++ S else S ++ filler).

Definition padStart := String_pad true.
Definition padEnd := String_pad false.

Definition String_ (v : value) : jsstring :=
  match v with
  | VStr s => s
  | _ => ToString v
  end.

(** [pos] defaults to ['start'] when it is left out. *)
Definition padString (v : value) (len : number) (fill : jsstring) (pos : value)
  : pad_result :=
  if negb (isDef v) then Returns []
  else
    let pos := if isUndefined pos then VStr (js "start") else pos in
    if strict_equals pos (VStr (js "start"))
    then padStart (String_ v) len fill
    else padEnd (String_ v) len fill.
End PadString.

(** ** Shapes of objects used by the further properties *)

Definition is_string_key (k : key) : bool :=
  match k with
  | KStr _ => true
  | KSym _ => false
  end.

(** An object that a shallow copy reproduces in full: no key twice,
    every property enumerable and named by a string other than
    [__proto__], no property equal to NaN. *)
Definition copyable (o : object) : bool :=
  bool_decide (NoDup (o_props o).*1)
  && forallb (λ kp : key * prop,
                p_enumerable kp.2 && is_string_key kp.1
                && negb (bool_decide (kp.1 = proto_key))
                && negb (Number_isNaN (p_value kp.2)))
             (o_props o).

(** ** Sequences of calls used by the further properties *)

(** The invocation a call leads to when its timer fires. *)
Definition delayed (delay : Z) (c : event) : event :=
  Event (ev_time c + delay) (ev_args c).

(** Successive calls are all at least [delay] apart. *)
Fixpoint well_spaced (delay : Z) (calls : list event) : bool :=
  match calls with
  | [] => true
  | c :: rest =>
      match rest with
      | [] => true
      | c' :: _ => (ev_time c + delay <=? ev_time c')%Z && well_spaced delay rest
      end
  end.

(** The invocations observed when [calls] arrive at a throttled
    function in the state [(w, c)] and time then runs on. *)
Definition throttle_from (delay : Z) (calls : list event)
    (w : loop (list value * Z)) (c : throttle_closure) : list event :=
  let '(w', c') := throttle_calls delay calls w c in
  throttle_log (settle throttle_fire w' c').2.

(** Successive renders of one instance that calls [useLatestRef] as its
    first hook, one value per render: the refs handed out, and the
    state. *)
Fixpoint useLatestRef_renders (values : list value) (fb : fiber)
  : list positive * fiber :=
  match values with
  | [] => ([], fb)
  | v :: values' =>
      let '(ref, fb1) := useLatestRef 0 v fb in
      let '(refs, fb2) := useLatestRef_renders values' fb1 in
      (ref :: refs, fb2)
  end.

(** ** Heaps of plain data *)

(** An object of plain data: no key twice, every property enumerable
    and named by a string, and no such name inherited by any object of
    the heap. *)
Definition data_object (h : heap) (o : object) : Prop :=
  NoDup (o_props o).*1
  ∧ Forall (λ kp : key * prop,
              p_enumerable kp.2 = true ∧ is_string_key kp.1 = true
              ∧ map_Forall (λ _ o', ¬ is_Some (chain_get kp.1 (o_proto o'))) h)
           (o_props o).

Definition plain_data (h : heap) : Prop :=
  map_Forall (λ _ o, data_object h o) h.

#[global] Instance plain_data_dec (h : heap) : Decision (plain_data h).
Proof. unfold plain_data, data_object. apply _. Defined.

(** Two dates at locations 1 and 2, [[]] at 3 and [{}] at 4. *)
Definition keyless_heap : heap :=
  {[ 1%positive := Object_ false [Date_prototype; Object_prototype] [];
     2%positive := Object_ false [Date_prototype; Object_prototype] [];
     3%positive := array_literal [];
     4%positive := empty_object ]}.

(** [{ a: 1, v: { b: 2 } }] at location 2 and [{ v: { b: 2 }, a: 1 }] at
    location 4, their inner objects at 1 and 3. *)
Definition twin_heap : heap :=
  {[ 1%positive := Object_ false [Object_prototype] [field "b" (VNum (num 2))];
     2%positive := Object_ false [Object_prototype]
                     [field "a" (VNum (num 1)); field "v" (VObj 1%positive)];
     3%positive := Object_ false [Object_prototype] [field "b" (VNum (num 2))];
     4%positive := Object_ false [Object_prototype]
                     [field "v" (VObj 3%positive); field "a" (VNum (num 1))] ]}.

(** ** What a throttled function keeps true between calls *)

(** Every pending timer and every invocation so far carries the
    arguments of a call in [seen], and the handles of the pending timers
    are older than the next one to be handed out. *)
Definition throttle_inv (seen : list (list value))
    (w : loop (list value * Z)) (c : throttle_closure) : Prop :=
  Forall (λ tm, (tm_payload tm).1 ∈ seen ∧ (tm_id tm < next_id w)%positive)
         (queue w)
  ∧ Forall (λ e, ev_args e ∈ seen) (throttle_log c).

(** * Properties *)

(** ** Order facts about numbers *)

Ltac split_compare :=
  repeat match goal with
    | H : context [(?a ?= ?b)%Z] |- _ => destruct (Z.compare_spec a b); simpl in H
    | |- context [(?a ?= ?b)%Z] => destruct (Z.compare_spec a b); simpl
    | H : context [(?a ?= ?b)%positive] |- _ => destruct (Pos.compare_spec a b); simpl in H
    | |- context [(?a ?= ?b)%positive] => destruct (Pos.compare_spec a b); simpl
    end.

Lemma SFcompare_antisym a b : SFcompare b a = CompOpp <$> SFcompare a b.
Proof.
  destruct a as [sa|sa| |sa ma ea], b as [sb|sb| |sb mb eb]; simpl; try done;
    try (by destruct sa); try (by destruct sb); try (by destruct sa, sb).
  change (PosDef.Pos.compare_cont Eq) with Pos.compare.
  destruct sa, sb; simpl; try done; f_equal; split_compare; subst; try done; lia.
Qed.

Lemma SFcompare_trans a b c c1 c2 :
  SFcompare a b = Some c1 → SFcompare b c = Some c2 → c1 ≠ Gt → c2 ≠ Gt →
  SFcompare a c = Some (weakest c1 c2).
Proof.
  destruct a as [sa|sa| |sa ma ea], b as [sb|sb| |sb mb eb], c as [sc|sc| |sc mc ec];
    simpl; try done;
    repeat match goal with s : bool |- _ => destruct s end; simpl;
    intros [= <-] [= <-]; simpl; try done.
  all: change (PosDef.Pos.compare_cont Eq) with Pos.compare in *.
  all: intros H1 H2; split_compare; subst; try done; try lia.
Qed.

Lemma SFcompare_refl a : a ≠ NaN → SFcompare a a = Some Eq.
Proof.
  destruct a as [sa|sa| |sa ma ea]; simpl; try done; intros _.
  - by destruct sa.
  - change (PosDef.Pos.compare_cont Eq) with Pos.compare.
    rewrite Z.compare_refl, Pos.compare_refl. by destruct sa.
Qed.

Lemma SFcompare_total a b : a ≠ NaN → b ≠ NaN → is_Some (SFcompare a b).
Proof. destruct a, b; simpl; try done; eauto. Qed.

Lemma SFcompare_not_NaN a b c : SFcompare a b = Some c → a ≠ NaN ∧ b ≠ NaN.
Proof. destruct a, b; simpl; try done. Qed.

(** Numbers that compare equal compare alike with every third one. *)
Lemma SFcompare_Eq_l a b c :
  SFcompare a b = Some Eq → SFcompare a c = SFcompare b c.
Proof.
  intros H. destruct (SFcompare_not_NaN _ _ _ H) as [Ha Hb].
  destruct (SFcompare b c) as [c2|] eqn:Hbc.
  - destruct c2.
    + by apply (SFcompare_trans a b c Eq Eq).
    + by apply (SFcompare_trans a b c Eq Lt).
    + pose proof (SFcompare_antisym b c) as Hcb. rewrite Hbc in Hcb.
      pose proof (SFcompare_antisym a b) as Hba. rewrite H in Hba.
      pose proof (SFcompare_trans c b a Lt Eq Hcb Hba) as Hca.
      rewrite (SFcompare_antisym c a), Hca; done.
  - destruct c as [s|s| |s m e]; try (by destruct a).
    all: match type of Hbc with SFcompare _ ?c = _ =>
           destruct (SFcompare_total b c) as [x Hx]; [done..|] end.
    all: rewrite Hx in Hbc; done.
Qed.

Lemma SFcompare_Eq_r a b c :
  SFcompare a b = Some Eq → SFcompare c a = SFcompare c b.
Proof.
  intros H. rewrite (SFcompare_antisym a c), (SFcompare_antisym b c).
  by rewrite (SFcompare_Eq_l a b c H).
Qed.

(** [Math.max] returns a number equal to the larger argument, [Math.min]
    one equal to the smaller. *)
Lemma Math_max_select a b c :
  SFcompare a b = Some c →
  SFcompare (Math_max a b) (match c with Lt => b | _ => a end) = Some Eq.
Proof.
  intros H. pose proof (SFcompare_not_NaN _ _ _ H) as [Ha Hb].
  unfold Math_max. rewrite H. destruct c.
  - destruct a, b; first [done | by apply SFcompare_refl].
  - by apply SFcompare_refl.
  - by apply SFcompare_refl.
Qed.

Lemma Math_min_select a b c :
  SFcompare a b = Some c →
  SFcompare (Math_min a b) (match c with Gt => b | _ => a end) = Some Eq.
Proof.
  intros H. pose proof (SFcompare_not_NaN _ _ _ H) as [Ha Hb].
  unfold Math_min. rewrite H. destruct c.
  - destruct a, b; first [done | by apply SFcompare_refl].
  - by apply SFcompare_refl.
  - by apply SFcompare_refl.
Qed.

Lemma num_le_compare a b :
  num_le a b = true ↔ SFcompare a b = Some Lt ∨ SFcompare a b = Some Eq.
Proof.
  unfold num_le, SFleb. destruct (SFcompare a b) as [[]|]; intuition congruence.
Qed.

(** The number [clamp] returns, up to the sign of zero. *)
Lemma clamp_select min value max c c' :
  SFcompare value min = Some c →
  SFcompare (match c with Lt => min | _ => value end) max = Some c' →
  SFcompare (clamp min value max)
    (match c' with
     | Gt => max
     | _ => match c with Lt => min | _ => value end
     end) = Some Eq.
Proof.
  intros Hc Hc'. unfold clamp.
  pose proof (Math_max_select _ _ _ Hc) as Hm.
  rewrite <- (SFcompare_Eq_l _ _ max Hm) in Hc'.
  pose proof (Math_min_select _ _ _ Hc') as Hr.
  destruct c'; try done; by rewrite <- (SFcompare_Eq_r _ _ _ Hm).
Qed.

(** C8 (amended).  For all numbers [min], [value], [max] with
    [min <= max] and [value] not NaN, [clamp(min, value, max)] is [min]
    when [value < min], [max] when [value > max] and [value] otherwise
    (each up to the sign of zero), and it lies in the closed interval
    from [min] to [max]. *)
Theorem clamp_spec min value max :
  value ≠ NaN → num_le min max = true → clamp_contract min value max.
Proof.
  intros Hv Hle. apply num_le_compare in Hle as Hmm.
  assert (min ≠ NaN ∧ max ≠ NaN) as [Hmin Hmax].
  { destruct Hmm as [H|H]; by apply SFcompare_not_NaN in H. }
  destruct (SFcompare_total value min Hv Hmin) as [c Hc].
  destruct (SFcompare_total value max Hv Hmax) as [d Hd].
  pose proof (SFcompare_antisym value min) as Hmv. rewrite Hc in Hmv.
  pose proof (SFcompare_antisym value max) as HMv. rewrite Hd in HMv.
  pose proof (SFcompare_refl _ Hv) as Hvv.
  pose proof (SFcompare_refl _ Hmin) as Hmin'.
  pose proof (SFcompare_refl _ Hmax) as Hmax'.
  assert (∃ c', SFcompare (match c with Lt => min | _ => value end) max = Some c')
    as [c' Hc'] by (destruct c; destruct Hmm; eauto).
  pose proof (clamp_select _ _ _ _ _ Hc Hc') as Hr.
  unfold clamp_contract, same_number, num_le, num_lt, num_eq, SFleb, SFltb, SFeqb.
  rewrite !(SFcompare_Eq_l _ _ _ Hr), !(SFcompare_Eq_r _ _ _ Hr).
  destruct c; simpl in *.
  - (* value equals min *)
    rewrite Hd in Hc'. injection Hc' as <-.
    pose proof Hd as Hd'. rewrite (SFcompare_Eq_l _ _ max Hc) in Hd'.
    destruct Hmm as [H|H]; rewrite H in Hd'; injection Hd' as <-; simpl in *;
      rewrite ?Hc, ?Hmv, ?HMv, ?Hvv, ?Hd, ?H; simpl; intuition congruence.
  - (* value below min *)
    assert (d = Lt) as ->.
    { destruct Hmm as [H'|H'].
      - pose proof (SFcompare_trans value min max Lt Lt Hc H'). naive_solver.
      - pose proof (SFcompare_trans value min max Lt Eq Hc H'). naive_solver. }
    destruct Hmm as [H|H]; rewrite H in Hc'; injection Hc' as <-; simpl in *;
      rewrite ?Hc, ?Hmv, ?HMv, ?Hmin', ?H; simpl; intuition congruence.
  - (* value above min *)
    rewrite Hd in Hc'. injection Hc' as <-.
    destruct d; simpl in *;
      rewrite ?Hc, ?Hmv, ?HMv, ?Hvv, ?Hd, ?Hmax'; simpl; intuition congruence.
Qed.


Lemma clamp_spec_witness :
  num_le (num 1) (num 3) = true ∧ clamp_contract (num 1) (num 2) (num 3).
Proof. split; [reflexivity | apply (clamp_spec (num 1) (num 2) (num 3)); [discriminate | reflexivity]]. Defined.

(** C8 as stated fails when [value] is NaN: [clamp(0, NaN, 1)] is NaN,
    which is not in the interval from 0 to 1. *)
Lemma clamp_NaN_outside_interval :
  num_le (num 0) (num 1) = true ∧ ¬ clamp_contract (num 0) NaN (num 1).
Proof.
  split; [done|]. intros (_ & _ & _ & H & _). vm_compute in H. done.
Qed.

(** ** isEquals *)

Lemma strict_equals_refl x : x ≠ VNum NaN → strict_equals x x = true.
Proof.
  destruct x; simpl; intros Hx; try done.
  - by destruct b.
  - unfold num_eq, SFeqb. rewrite SFcompare_refl; [done|]. by intros ->.
  - apply Z.eqb_refl.
  - by apply bool_decide_eq_true.
  - apply Pos.eqb_refl.
  - apply Pos.eqb_refl.
  - apply Pos.eqb_refl.
Qed.

(** C2 (amended).  For every value [x] other than the number NaN,
    [isEquals(x, x)] returns true through the identity fast path; this
    includes every object, whatever its fields hold. *)
Theorem isEquals_reflexive (fuel : nat) (h : heap) (x : value) :
  x ≠ VNum NaN → isEquals (S fuel) h x x = Some true.
Proof. intros Hx. simpl. by rewrite strict_equals_refl. Qed.

Lemma isEquals_reflexive_witness :
  VObj 2%positive ≠ VNum NaN ∧
  isEquals 1 nested_heap (VObj 2%positive) (VObj 2%positive) = Some true.
Proof.
  split; [discriminate | apply (isEquals_reflexive 0 nested_heap (VObj 2%positive)); discriminate].
Defined.

(** C2 as stated fails at NaN: [isEquals(NaN, NaN)] is false. *)
Lemma isEquals_NaN_NaN :
  ¬ ∃ fuel, isEquals fuel ∅ (VNum NaN) (VNum NaN) = Some true.
Proof. intros [[|fuel] H]; simpl in H; discriminate. Qed.

Lemma props_get_elem_of {V} (k : key) (ps : list (key * V)) v :
  props_get k ps = Some v → (k, v) ∈ ps.
Proof.
  induction ps as [|[k' v'] ps IH]; simpl; [done|].
  case_decide; [intros [= ->]; subst; left | right; auto].
Qed.

Lemma props_get_is_Some {V} (k : key) (ps : list (key * V)) :
  k ∈ ps.*1 → is_Some (props_get k ps).
Proof.
  induction ps as [|[k' v'] ps IH]; simpl; [by intros ?%elem_of_nil|].
  case_decide; [eauto|]. intros [?|?]%elem_of_cons; [done|auto].
Qed.

Lemma Object_keys_own h l k : k ∈ Object_keys h l → k ∈ Reflect_ownKeys h l.
Proof.
  unfold Object_keys, Reflect_ownKeys. intros ([k' p] & Hin & Hk)%list_elem_of_omap.
  simpl in Hk. apply list_elem_of_fmap. exists (k', p). split; [|done].
  destruct k'; [destruct (p_enumerable p)|]; naive_solver.
Qed.

Lemma every_key_is_Some check keys :
  (∀ k, k ∈ keys → is_Some (check k)) → is_Some (every_key check keys).
Proof.
  induction keys as [|k keys IH]; simpl; [eauto|]. intros H.
  destruct (H k) as [[] ->]; [by left| |eauto].
  apply IH. intros ??. apply H. by right.
Qed.

Lemma isEquals_primitive fuel h x y :
  (∀ l, x ≠ VObj l) → is_Some (isEquals (S fuel) h x y).
Proof.
  intros Hx. simpl. destruct (strict_equals x y); [eauto|].
  destruct x as [| | | | | | | |l]; [destruct y; simpl; eauto..|by destruct (Hx l)].
Qed.

Lemma isEquals_finite_nesting (n : nat) (h : heap) (x y : value) :
  nesting_within n h x = true → ∃ b, isEquals (S n) h x y = Some b.
Proof.
  revert x y. induction n as [|n IH]; intros x y Hx.
  - apply isEquals_primitive. intros l ->. done.
  - destruct x; try (apply isEquals_primitive; by intros ?).
    cbn [isEquals]. destruct (strict_equals (VObj l) y); [eauto|].
    destruct (negb _ || negb _); [eauto|].
    destruct y; eauto. destruct (negb _); [eauto|].
    apply every_key_is_Some. intros k Hk.
    destruct (negb _); [eauto|]. apply IH.
    apply Object_keys_own, props_get_is_Some in Hk as [p Hp].
    unfold Reflect_get, object_get, own_value. rewrite Hp. simpl.
    apply props_get_elem_of in Hp. simpl in Hx.
    rewrite forallb_forall in Hx. apply (Hx (k, p)). by apply list_elem_of_In.
Qed.

Lemma pipe_chain_compose call v steps :
  pipe_chain call (pipe v) steps
  = Some (compose_left_to_right call (function_steps steps) v).
Proof.
  revert v. induction steps as [|s steps IH]; intros v; [done|].
  destruct s; simpl; apply IH.
Qed.

Lemma every_key_mono check1 check2 keys b :
  (∀ k b', k ∈ keys → check1 k = Some b' → check2 k = Some b') →
  every_key check1 keys = Some b → every_key check2 keys = Some b.
Proof.
  induction keys as [|k keys IH]; intros Hmono; [done|]. cbn [every_key].
  destruct (check1 k) as [[]|] eqn:Hk; [| |done].
  - rewrite (Hmono k true) by (done || apply elem_of_cons; auto).
    apply IH. intros k' b' Hk'. apply Hmono, elem_of_cons. auto.
  - by rewrite (Hmono k false) by (done || apply elem_of_cons; auto).
Qed.

(** An answer found within some depth is the answer within any larger
    depth. *)
Lemma isEquals_deeper fuel fuel' h x y b :
  fuel <= fuel' → isEquals fuel h x y = Some b → isEquals fuel' h x y = Some b.
Proof.
  revert fuel' x y b. induction fuel as [|fuel IH]; intros fuel' x y b Hle; [done|].
  destruct fuel' as [|fuel']; [lia|]. cbn [isEquals].
  destruct (strict_equals x y); [done|].
  destruct (negb _ || negb _); [done|].
  destruct x; try done. destruct y; try done.
  destruct (negb _); [done|].
  apply every_key_mono. intros k b' _.
  destruct (negb _); [done|]. apply IH. lia.
Qed.




(** ** isEmpty *)

Lemma trimStart_spaces s : forallb is_trim_space s = true → trimStart s = [].
Proof.
  induction s as [|c s IH]; simpl; [done|].
  intros [-> ?]%andb_true_iff. auto.
Qed.

Lemma trim_spaces s : forallb is_trim_space s = true → trim s = [].
Proof. intros H. unfold trim, trimEnd. rewrite (trimStart_spaces s) by done. reflexivity. Qed.

(** C10.  [isEmpty] is true for every string made of whitespace only
    (the string is trimmed first), and false for every object that is
    neither an array nor a plain object, whatever own keys it has or
    lacks. *)
Theorem isEmpty_whitespace_and_exotic (h : heap) :
  (∀ s, forallb is_trim_space s = true → isEmpty h (VStr s) = true) ∧
  (∀ l, Array_isArray h (VObj l) = false → isPlainObject h (VObj l) = false →
        isEmpty h (VObj l) = false).
Proof.
  split.
  - intros s Hs. unfold isEmpty. simpl. rewrite trim_spaces by done. reflexivity.
  - intros l Ha Hp. unfold isEmpty. by rewrite Ha, Hp.
Qed.

Lemma isEmpty_whitespace_and_exotic_witness :
  (forallb is_trim_space [32; 9; 160; 10; 12288]%N = true ∧
   isEmpty nested_heap (VStr [32; 9; 160; 10; 12288]%N) = true) ∧
  (Array_isArray nested_heap (VObj 3%positive) = false ∧
   isPlainObject nested_heap (VObj 3%positive) = false ∧
   Object_keys nested_heap 3%positive = [] ∧
   isEmpty nested_heap (VObj 3%positive) = false).
Proof.
  pose proof (isEmpty_whitespace_and_exotic nested_heap) as [Hs Ho].
  split.
  - split; [reflexivity | apply Hs; reflexivity].
  - split; [reflexivity|]. split; [reflexivity|]. split; [reflexivity|].
    apply Ho; reflexivity.
Defined.

(** ** pipe *)

(** C7.  For every initial value and every chain of steps, each a
    function or one of [undefined], [null], [false], the chain closed by
    an empty call returns the left-to-right composition of the function
    steps, the other steps being skipped; [pipe(v)()] is [v] and
    [pipe(v)(f)()] is [f(v)]. *)
Theorem pipe_composes (call : fid → value → value) (v : value)
    (steps : list value) :
  forallb (λ s, isFunction s || falsy_step s) steps = true →
  pipe_chain call (pipe v) steps
  = Some (compose_left_to_right call (function_steps steps) v)
  ∧ pipe_chain call (pipe v) [] = Some v
  ∧ ∀ f, pipe_chain call (pipe v) [VFun f] = Some (call f v).
Proof. intros _. split; [apply pipe_chain_compose | by split]. Qed.

Lemma pipe_composes_witness :
  let call := λ (f : fid) (v : value),
    match f, v with
    | 1%positive, VBool b => VBool (negb b)
    | _, _ => VStr (js "other")
    end in
  let steps := [VFun 1%positive; VUndefined; VBool false; VFun 2%positive; VNull] in
  forallb (λ s, isFunction s || falsy_step s) steps = true ∧
  pipe_chain call (pipe (VBool true)) steps = Some (VStr (js "other")).
Proof.
  intros call steps. split; [reflexivity|].
  exact (proj1 (pipe_composes call (VBool true) steps eq_refl)).
Defined.

(** ** pick and omit *)

Lemma own_value_is_Some o k : is_Some (own_value o k) ↔ k ∈ (o_props o).*1.
Proof.
  unfold own_value. rewrite fmap_is_Some. split.
  - intros [p Hp%props_get_elem_of]. apply list_elem_of_fmap. by exists (k, p).
  - apply props_get_is_Some.
Qed.

Lemma props_get_assign k v ps k' :
  p_value <$> props_get k' (props_assign k v ps)
  = if decide (k = k') then Some v else p_value <$> props_get k' ps.
Proof.
  induction ps as [|[k0 p0] ps IH]; simpl.
  - repeat case_decide; naive_solver.
  - destruct (decide (k = k0)) as [->|Hne]; simpl.
    + repeat case_decide; naive_solver.
    + destruct (decide (k' = k0)) as [->|Hne']; simpl.
      * by rewrite decide_False.
      * apply IH.
Qed.

Lemma own_value_assign o k v k' :
  own_value (object_assign o k v) k'
  = if decide (k = k') then Some v else own_value o k'.
Proof. apply props_get_assign. Qed.

Lemma pick_fields_own o keys value k :
  own_value (pick_fields o keys value) k
  = if bool_decide (k ∈ keys) && object_has o k
    then Some (object_get o k) else own_value value k.
Proof.
  revert value. induction keys as [|k0 keys IH]; intros value; [done|].
  change (pick_fields o (k0 :: keys) value)
    with (pick_fields o keys
            (if object_has o k0 then object_assign value k0 (object_get o k0)
             else value)).
  rewrite IH. destruct (decide (k = k0)) as [->|Hne].
  - rewrite (bool_decide_eq_true_2 (k0 ∈ k0 :: keys)) by left.
    destruct (object_has o k0) eqn:Hhas; rewrite ?andb_true_r, ?andb_false_r; simpl.
    + rewrite own_value_assign. rewrite decide_True by done.
      by destruct (bool_decide _).
    + done.
  - assert (bool_decide (k ∈ k0 :: keys) = bool_decide (k ∈ keys)) as ->.
    { apply bool_decide_ext. rewrite elem_of_cons. intuition congruence. }
    destruct (bool_decide (k ∈ keys) && object_has o k); [done|].
    destruct (object_has o k0); [|done].
    rewrite own_value_assign. by rewrite decide_False.
Qed.

Lemma alloc_fresh (h : heap) : h !! alloc h = None.
Proof.
  apply not_elem_of_dom. intros Hin.
  apply (is_fresh (dom h ∪ builtin_locations)). apply elem_of_union. by left.
Qed.

Lemma alloc_ne (h : heap) l : is_Some (h !! l) → alloc h ≠ l.
Proof. intros [o Ho] Heq. rewrite <- Heq, alloc_fresh in Ho. done. Qed.

(** Of what an object inherits from [Object.prototype] alone, only
    [__proto__] is an accessor. *)
Lemma chain_get_Object_prototype k :
  chain_get k [Object_prototype] = Some ProtoAccessor → k = proto_key.
Proof.
  cbn [chain_get Object_prototype f_props props_get].
  repeat (case_decide; [by subst|]). done.
Qed.

Lemma SameValueZero_key_arg a k : SameValueZero a (key_arg k) = true ↔ a = key_arg k.
Proof.
  destruct a, k; simpl; rewrite ?bool_decide_eq_true, ?Pos.eqb_eq;
    split; (congruence || done).
Qed.

Lemma includes_key_arg keys k : includes keys (key_arg k) = true ↔ key_arg k ∈ keys.
Proof.
  unfold includes. rewrite existsb_exists. split.
  - intros (a & Hin & ->%SameValueZero_key_arg). by apply list_elem_of_In.
  - intros Hin. exists (key_arg k). split; [by apply list_elem_of_In|].
    by apply SameValueZero_key_arg.
Qed.

Section PickOmit.
Variable Number_toString : number → jsstring.
Variable function_chain : fid → list frame.

Lemma ToPropertyKey_key_arg k : ToPropertyKey Number_toString (key_arg k) = k.
Proof. by destruct k. Qed.

Lemma ToPropertyKey_key_args (keys : list key) :
  ToPropertyKey Number_toString <$> (key_arg <$> keys) = keys.
Proof.
  induction keys as [|k keys IH]; [done|].
  by rewrite !fmap_cons, ToPropertyKey_key_arg, IH.
Qed.

Lemma named_includes (keys : list keyarg) k :
  forallb is_name keys = true →
  includes keys (key_arg k) = bool_decide (k ∈ ToPropertyKey Number_toString <$> keys).
Proof.
  intros Hnames. apply eq_true_iff_eq.
  rewrite includes_key_arg, bool_decide_eq_true, list_elem_of_fmap. split.
  - intros Hin. exists (key_arg k). by rewrite ToPropertyKey_key_arg.
  - intros (a & -> & Hin). rewrite forallb_forall in Hnames.
    pose proof (Hnames a (proj1 (list_elem_of_In _ _) Hin)) as Ha.
    by destruct a.
Qed.

(** Under [Object.prototype] alone, and for any key but [__proto__], an
    assignment writes an own data property. *)
Lemma object_set_data h acc k v :
  o_proto acc = [Object_prototype] → k ≠ proto_key →
  object_set function_chain h acc k v = object_assign acc k v.
Proof.
  intros Hp Hk. unfold object_set. destruct (own_value acc k); [done|].
  rewrite Hp. destruct (chain_get k [Object_prototype]) as [[]|] eqn:Hget; try done.
  by apply chain_get_Object_prototype in Hget.
Qed.

Lemma pick_fields_proto o keys acc :
  o_proto (pick_fields o keys acc) = o_proto acc.
Proof.
  revert acc. induction keys as [|k keys IH]; intros acc; [done|].
  change (pick_fields o (k :: keys) acc)
    with (pick_fields o keys
            (if object_has o k then object_assign acc k (object_get o k)
             else acc)).
  rewrite IH. by destruct (object_has o k).
Qed.

Lemma pick_walk h target o value acc keys :
  value ≠ target → h !! target = Some o →
  o_proto acc = [Object_prototype] →
  proto_key ∉ ToPropertyKey Number_toString <$> keys →
  fold_left
    (λ h' key,
       if Reflect_has h' target (ToPropertyKey Number_toString key)
       then heap_set function_chain h' value (ToPropertyKey Number_toString key)
              (Reflect_get h' target (ToPropertyKey Number_toString key))
       else h')
    keys (<[value := acc]> h)
  = <[value := pick_fields o (ToPropertyKey Number_toString <$> keys) acc]> h.
Proof.
  intros Hne Ho. revert acc.
  induction keys as [|a keys IH]; intros acc Hp Hkeys; [done|].
  rewrite fmap_cons in Hkeys. apply not_elem_of_cons in Hkeys as [Hkey Hkeys].
  cbn [fold_left]. rewrite fmap_cons.
  set (k := ToPropertyKey Number_toString a) in *.
  assert (obj_at (<[value := acc]> h) target = o) as Ht.
  { unfold obj_at. by rewrite lookup_insert_ne, Ho. }
  unfold Reflect_has, Reflect_get. rewrite Ht.
  change (pick_fields o (k :: (ToPropertyKey Number_toString <$> keys)) acc)
    with (pick_fields o (ToPropertyKey Number_toString <$> keys)
            (if object_has o k then object_assign acc k (object_get o k)
             else acc)).
  destruct (object_has o k); [|by apply IH].
  unfold heap_set, obj_at. rewrite lookup_insert_eq, insert_insert_eq. simpl.
  rewrite object_set_data by done. by apply IH.
Qed.

Lemma pick_result h target o keys :
  h !! target = Some o →
  proto_key ∉ ToPropertyKey Number_toString <$> keys →
  pick Number_toString function_chain h target keys
  = (<[alloc h := pick_fields o (ToPropertyKey Number_toString <$> keys)
                    empty_object]> h,
     alloc h).
Proof.
  intros Ho Hkeys. unfold pick. f_equal. apply pick_walk; [|done..].
  apply alloc_ne. eauto.
Qed.

Lemma pick_own_entry h target o keys k :
  h !! target = Some o →
  proto_key ∉ ToPropertyKey Number_toString <$> keys →
  own_entry (pick Number_toString function_chain h target keys) k
  = if bool_decide (k ∈ ToPropertyKey Number_toString <$> keys) && object_has o k
    then Some (object_get o k) else None.
Proof.
  intros Ho Hkeys. rewrite (pick_result _ _ o) by done.
  unfold own_entry, obj_at. simpl.
  rewrite lookup_insert_eq. simpl. apply pick_fields_own.
Qed.

Lemma pick_preserves h target o keys l :
  h !! target = Some o →
  proto_key ∉ ToPropertyKey Number_toString <$> keys →
  is_Some (h !! l) →
  (pick Number_toString function_chain h target keys).1 !! l = h !! l.
Proof.
  intros Ho Hkeys Hl. rewrite (pick_result _ _ o) by done. simpl.
  apply lookup_insert_ne. by apply alloc_ne.
Qed.

(** The keys [omit] hands to [pick], when [__proto__] is no own key of
    the target. *)
Lemma omit_keys h target o keys :
  h !! target = Some o → proto_key ∉ (o_props o).*1 →
  proto_key
  ∉ ToPropertyKey Number_toString
    <$> (key_arg <$> filter (λ key, negb (includes keys (key_arg key)) = true)
                            (Reflect_ownKeys h target)).
Proof.
  intros Ho Hown. rewrite ToPropertyKey_key_args.
  intros [_ Hin]%list_elem_of_filter. apply Hown.
  unfold Reflect_ownKeys, obj_at in Hin. by rewrite Ho in Hin.
Qed.

Lemma omit_own_entry h target o keys k :
  h !! target = Some o → proto_key ∉ (o_props o).*1 →
  own_entry (omit Number_toString function_chain h target keys) k
  = if includes keys (key_arg k) then None else own_value o k.
Proof.
  intros Ho Hown. unfold omit.
  rewrite (pick_own_entry _ _ o) by (done || by apply (omit_keys _ _ o)).
  rewrite ToPropertyKey_key_args.
  unfold Reflect_ownKeys, obj_at. rewrite Ho. simpl.
  set (kept := filter _ _).
  assert ((k ∈ kept) ↔ includes keys (key_arg k) = false
                       ∧ is_Some (own_value o k)) as Hkept.
  { unfold kept. rewrite list_elem_of_filter, negb_true_iff,
      own_value_is_Some. done. }
  destruct (includes keys (key_arg k)) eqn:Hk.
  - rewrite (bool_decide_eq_false_2 (k ∈ kept)); [done|]. rewrite Hkept.
    by intros [? _].
  - destruct (own_value o k) as [v|] eqn:Hv.
    + rewrite (bool_decide_eq_true_2 (k ∈ kept)) by (rewrite Hkept; eauto).
      unfold object_has, object_get. by rewrite Hv.
    + rewrite (bool_decide_eq_false_2 (k ∈ kept)); [done|].
      rewrite Hkept. intros [_ []]. done.
Qed.

(** C6 (the code departs from it).  A key list may hold numbers, and
    [omit] compares the own keys of the target, which are strings, with
    the elements of the list as they are: a number is never the same as
    a string, so [omit({ 1: 'x' }, [1])] keeps the property [1] that it
    was asked to leave out.  And an own property [__proto__] of the
    target is never copied: the assignment into the new object runs the
    inherited setter instead, which ignores the value 5 and makes
    [Date.prototype] the prototype of [pick(new Date(), ['__proto__'])]. *)
Theorem omit_keeps_numeric_key :
  own_entry (numeric_key_heap, 1%positive) (KStr (js "1")) = Some (VStr (js "x"))
  ∧ own_entry (omit Number_toString function_chain numeric_key_heap 1%positive
                 [ANum (num 1)]) (KStr (js "1"))
    = Some (VStr (js "x"))
  ∧ own_entry (own_proto_heap, 1%positive) proto_key = Some (VNum (num 5))
  ∧ own_entry (omit Number_toString function_chain own_proto_heap 1%positive [])
              proto_key = None
  ∧ own_entry (pick Number_toString function_chain own_proto_heap 1%positive
                 [AStr (js "__proto__")]) proto_key = None
  ∧ isPlainObject
      (pick Number_toString function_chain own_proto_heap 2%positive
         [AStr (js "__proto__")]).1
      (VObj (pick Number_toString function_chain own_proto_heap 2%positive
               [AStr (js "__proto__")]).2) = false.
Proof. repeat split; reflexivity. Qed.

(** X25.  Apart from the key [__proto__], [pick(o, ks)] holds exactly
    the keys of [ks] present on [o] and [omit(o, ks)] exactly the own
    keys of [o] that [ks] does not include, each with the value [o] has
    for it; when [ks] lists own keys of [o] by strings and symbols only,
    the two results share no key and together hold the own entries of
    [o]; and every object of the heap, [o] included, is left as it
    was. *)
Theorem pick_omit_complement (h : heap) (o : loc) (ks : list keyarg) :
  is_Some (h !! o) →
  proto_key ∉ ToPropertyKey Number_toString <$> ks →
  proto_key ∉ Reflect_ownKeys h o →
  (∀ k, own_entry (pick Number_toString function_chain h o ks) k
        = if bool_decide (k ∈ ToPropertyKey Number_toString <$> ks)
             && Reflect_has h o k
          then Some (Reflect_get h o k) else None)
  ∧ (∀ k, own_entry (omit Number_toString function_chain h o ks) k
          = if includes ks (key_arg k) then None else own_entry (h, o) k)
  ∧ (forallb is_name ks = true →
     ToPropertyKey Number_toString <$> ks ⊆ Reflect_ownKeys h o →
     ∀ k, (own_entry (pick Number_toString function_chain h o ks) k = None
           ∨ own_entry (omit Number_toString function_chain h o ks) k = None)
          ∧ own_entry (h, o) k
            = own_entry (pick Number_toString function_chain h o ks) k
              ∪ own_entry (omit Number_toString function_chain h o ks) k)
  ∧ (∀ l, is_Some (h !! l) →
          (pick Number_toString function_chain h o ks).1 !! l = h !! l
          ∧ (omit Number_toString function_chain h o ks).1 !! l = h !! l).
Proof.
  intros [obj Ho] Hks Hown.
  assert (obj_at h o = obj) as Hobj by (unfold obj_at; by rewrite Ho).
  unfold Reflect_ownKeys in Hown. rewrite Hobj in Hown.
  split; [|split; [|split]].
  - intros k. rewrite (pick_own_entry _ _ obj) by done.
    unfold Reflect_has, Reflect_get. by rewrite Hobj.
  - intros k. rewrite (omit_own_entry _ _ obj) by done.
    unfold own_entry. simpl. by rewrite Hobj.
  - intros Hnames Hsub k.
    rewrite (pick_own_entry _ _ obj), (omit_own_entry _ _ obj) by done.
    rewrite (named_includes ks k Hnames).
    unfold own_entry. simpl. rewrite Hobj.
    destruct (bool_decide (k ∈ ToPropertyKey Number_toString <$> ks)) eqn:Hk; simpl.
    + apply bool_decide_eq_true in Hk. apply Hsub in Hk.
      unfold Reflect_ownKeys in Hk. rewrite Hobj in Hk.
      apply own_value_is_Some in Hk as [v Hv].
      unfold object_has, object_get. rewrite Hv. simpl. auto.
    + split; [by left|]. by destruct (own_value obj k).
  - intros l Hl. split; [by apply (pick_preserves _ _ obj)|].
    unfold omit. apply (pick_preserves _ _ obj); [done| |done].
    by apply (omit_keys _ _ obj).
Qed.
End PickOmit.

Lemma pick_omit_complement_witness :
  is_Some (abc_heap !! 1%positive) ∧
  (proto_key ∉ ToPropertyKey (λ _, []) <$> [AStr (js "a"); AStr (js "b")]) ∧
  (proto_key ∉ Reflect_ownKeys abc_heap 1%positive) ∧
  own_entry (pick (λ _, []) (λ _, []) abc_heap 1%positive
               [AStr (js "a"); AStr (js "b")]) (KStr (js "a"))
  = Some (VNum (num 1)) ∧
  own_entry (omit (λ _, []) (λ _, []) abc_heap 1%positive
               [AStr (js "a"); AStr (js "b")]) (KStr (js "c"))
  = Some (VNum (num 3)).
Proof.
  assert (is_Some (abc_heap !! 1%positive)) as Hs
    by (exists (obj_at abc_heap 1%positive); reflexivity).
  assert (proto_key ∉ ToPropertyKey (λ _, []) <$> [AStr (js "a"); AStr (js "b")])
    as Hks by by apply (bool_decide_eq_true_1 (proto_key ∉ _)).
  assert (proto_key ∉ Reflect_ownKeys abc_heap 1%positive) as Hown
    by by apply (bool_decide_eq_true_1 (proto_key ∉ _)).
  split; [exact Hs|]. split; [exact Hks|]. split; [exact Hown|].
  destruct (pick_omit_complement (λ _, []) (λ _, []) abc_heap 1%positive
              [AStr (js "a"); AStr (js "b")] Hs Hks Hown)
    as (Hp & Hm & _).
  split; [rewrite Hp | rewrite Hm]; reflexivity.
Defined.

(** ** Timers with at most one pending callback *)

(** A delay that fits 31 bits is taken as it is. *)
Lemma timer_delay_in_range delay :
  (0 <= delay < 2 ^ 31)%Z → Z.max 0 (ToInt32 delay) = delay.
Proof.
  intros Hd. unfold ToInt32. rewrite Z.mod_small by lia. lia.
Qed.

Section OneTimer.
Context {A St : Type} (fire : A → Z → St → St).

Lemma advance_idle t clk n (s : St) :
  advance fire t (Loop clk [] n) s = (Loop t [] n, s).
Proof. reflexivity. Qed.

Lemma advance_fires t clk id due (a : A) n (s : St) :
  (due <= t)%Z →
  advance fire t (Loop clk [Timer id due a] n) s = (Loop t [] n, fire a due s).
Proof.
  intros Hdue. unfold advance. cbn [queue length run_due next_due tm_due].
  rewrite (proj2 (Z.leb_le _ _) Hdue).
  unfold clearTimeout. cbn [queue filter list_filter tm_id tm_payload clock next_id].
  rewrite Pos.eqb_refl. cbn [negb]. by rewrite decide_False.
Qed.

Lemma advance_waits t clk id due (a : A) n (s : St) :
  (t < due)%Z →
  advance fire t (Loop clk [Timer id due a] n) s
  = (Loop t [Timer id due a] n, s).
Proof.
  intros Hdue. unfold advance. cbn [queue length run_due next_due tm_due].
  by rewrite (proj2 (Z.leb_gt _ _) Hdue).
Qed.

Lemma settle_idle clk n (s : St) :
  settle fire (Loop clk [] n : loop A) s = (Loop clk [] n, s).
Proof. reflexivity. Qed.

Lemma settle_fires clk id due (a : A) n (s : St) :
  settle fire (Loop clk [Timer id due a] n) s = (Loop due [] n, fire a due s).
Proof.
  unfold settle. cbn [queue length run_due next_due tm_due].
  unfold clearTimeout. cbn [queue filter list_filter tm_id tm_payload clock next_id].
  rewrite Pos.eqb_refl. cbn [negb]. by rewrite decide_False.
Qed.

Lemma clearTimeout_only clk id due (a : A) n :
  clearTimeout id (Loop clk [Timer id due a] n) = Loop clk [] n.
Proof.
  unfold clearTimeout. cbn [queue filter list_filter tm_id clock next_id].
  rewrite Pos.eqb_refl. cbn [negb]. by rewrite decide_False.
Qed.

Lemma clearTimeout_idle clk id n :
  clearTimeout id (Loop clk [] n : loop A) = Loop clk [] n.
Proof. reflexivity. Qed.
End OneTimer.

(** ** debounce *)

Lemma chronological_cons c c' rest :
  chronological (c :: c' :: rest) = true ↔
  (ev_time c <= ev_time c')%Z ∧ chronological (c' :: rest) = true.
Proof.
  change (chronological (c :: c' :: rest))
    with ((ev_time c <=? ev_time c')%Z && chronological (c' :: rest)).
  rewrite andb_true_iff, Z.leb_le. done.
Qed.

Lemma debounce_from_cons delay call rest w c w1 c1 w2 c2 :
  advance debounce_fire (ev_time call) w c = (w1, c1) →
  debounced delay (ev_args call) w1 c1 = (w2, c2) →
  debounce_from delay (call :: rest) w c = debounce_from delay rest w2 c2.
Proof.
  intros H1 H2. unfold debounce_from. cbn [debounce_calls]. by rewrite H1, H2.
Qed.

(** A call replaces whatever timer the previous call left. *)
Lemma debounced_rearms delay a t q id n log :
  (0 < delay < 2 ^ 31)%Z → q = [] ∨ (∃ due a0, q = [Timer id due a0]) →
  debounced delay a (Loop t q n) (DebounceClosure (Some id) log)
  = (Loop t [Timer n (t + delay) a] (Pos.succ n), DebounceClosure (Some n) log).
Proof.
  intros Hd Hq. unfold debounced. cbn [timeout debounce_log].
  assert (clearTimeout id (Loop t q n) = Loop t [] n) as ->.
  { destruct Hq as [->|(due & a0 & ->)];
      [apply clearTimeout_idle | apply clearTimeout_only]. }
  unfold setTimeout. cbn [clock queue next_id app]. by rewrite timer_delay_in_range by lia.
Qed.

(** The state right after a call at [t0] with arguments [a0]: its timer
    is the only one pending.  From there the calls that follow lead to
    the invocations the glossary describes. *)
Lemma debounce_pending delay calls id n t0 a0 log :
  (0 < delay < 2 ^ 31)%Z → chronological (Event t0 a0 :: calls) = true →
  debounce_from delay calls
    (Loop t0 [Timer id (t0 + delay) a0] n) (DebounceClosure (Some id) log)
  = log ++ debounce_expected delay (Event t0 a0 :: calls).
Proof.
  intros Hd. revert id n t0 a0 log.
  induction calls as [|[t a] rest IH]; intros id n t0 a0 log Hchr.
  - unfold debounce_from. cbn [debounce_calls]. by rewrite settle_fires.
  - apply chronological_cons in Hchr as [Hle Hchr]. simpl in Hle.
    unfold debounce_expected.
    change (followed_by_quiet delay (Event t0 a0 :: Event t a :: rest))
      with (if (t0 + delay <=? t)%Z
            then Event t0 a0 :: followed_by_quiet delay (Event t a :: rest)
            else followed_by_quiet delay (Event t a :: rest)).
    destruct (Z.leb_spec (t0 + delay) t) as [Hdue|Hdue].
    + erewrite debounce_from_cons;
        [|by apply advance_fires|apply debounced_rearms; [done|by left]].
      rewrite IH by done. rewrite fmap_cons. cbn [debounce_log ev_time ev_args].
      by rewrite <- app_assoc.
    + erewrite debounce_from_cons;
        [|by apply advance_waits|apply debounced_rearms; [done|right; eauto]].
      by rewrite IH.
Qed.

Lemma debounce_run_expected delay calls :
  (0 < delay < 2 ^ 31)%Z → chronological calls = true →
  debounce_run delay calls = debounce_expected delay calls.
Proof.
  intros Hd Hchr.
  change (debounce_run delay calls)
    with (debounce_from delay calls loop_start debounce).
  destruct calls as [|[t a] rest]; [done|].
  rewrite (debounce_from_cons delay _ rest _ _ (Loop t [] 1) debounce
             (Loop t [Timer 1%positive (t + delay) a] 2)
             (DebounceClosure (Some 1%positive) [])).
  - by apply (debounce_pending delay rest 1%positive 2%positive t a []).
  - apply advance_idle.
  - unfold debounced, debounce, setTimeout.
    cbn [timeout debounce_log clock queue next_id app ev_args].
    by rewrite timer_delay_in_range by lia.
Qed.

Lemma closely_spaced_quiet delay calls c :
  closely_spaced delay calls = true → last calls = Some c →
  followed_by_quiet delay calls = [c].
Proof.
  induction calls as [|c0 [|c1 rest] IH]; [done| |].
  - by intros _ [= ->].
  - change (closely_spaced delay (c0 :: c1 :: rest))
      with ((ev_time c1 - ev_time c0 <? delay)%Z
            && closely_spaced delay (c1 :: rest)).
    intros [Hgap Hrest]%andb_true_iff Hlast. apply Z.ltb_lt in Hgap.
    change (followed_by_quiet delay (c0 :: c1 :: rest))
      with (if (ev_time c0 + delay <=? ev_time c1)%Z
            then c0 :: followed_by_quiet delay (c1 :: rest)
            else followed_by_quiet delay (c1 :: rest)).
    rewrite (proj2 (Z.leb_gt _ _)) by lia. by apply IH.
Qed.




(** ** throttle *)

(** C3 (the code departs from it).  With a delay of 100 ms, calls at
    1000, 1050 and 1151 make the wrapped function run at 1000, at 1150
    (the timer of the second call) and at 1151 (the third call, judged
    against the stale [previous = 1050]): two runs 1 ms apart. *)
Theorem throttle_runs_too_close :
  throttle_run 100 [Event 1000 []; Event 1050 []; Event 1151 []]
  = [Event 1000 []; Event 1150 []; Event 1151 []]
  ∧ too_close 100 (throttle_run 100 [Event 1000 []; Event 1050 []; Event 1151 []]).
Proof.
  split; [reflexivity|].
  exists 1, 2, (Event 1150 []), (Event 1151 []).
  split; [lia|]. split; [reflexivity|]. split; [reflexivity|]. simpl. lia.
Qed.

(** The same defect on the other path: a call that finds the interval
    over runs the function at once and leaves the pending timer armed. *)
Lemma throttle_leaves_timer_armed :
  throttle_run 100 [Event 1000 []; Event 1001 []; Event 1100 []]
  = [Event 1000 []; Event 1100 []; Event 1101 []].
Proof. reflexivity. Qed.

(** ** useConstant *)

(** C1 (the code departs from it).  When the first result of [init] is
    falsy the ref still tests as empty on the next render: two renders
    call [init] twice, and return different values. *)
Theorem useConstant_falsy_reinit :
  (useConstant_renders counting_init 2 (fiber_mount, 0)).1
  = [VNum (num 0); VNum (num 1)]
  ∧ (useConstant_renders counting_init 2 (fiber_mount, 0)).2.2 = 2.
Proof. split; reflexivity. Qed.

Lemma useConstant_settled init v fb calls :
  slots fb !! 0 = Some (RefSlot 1) → refs fb !! 1%positive = Some v →
  ToBoolean v = true →
  useConstant init (fb, calls) = (v, (fb, calls)).
Proof.
  intros Hs Hr Hv. unfold useConstant, useRef. rewrite Hs.
  unfold ref_current. rewrite Hr. simpl. rewrite Hv. simpl. by rewrite Hr.
Qed.

(** For a truthy first result the hook does what its name says: one
    call of [init], and that result on every render. *)
Lemma useConstant_truthy_once init n :
  ToBoolean (init 0) = true →
  (useConstant_renders init (S n) (fiber_mount, 0)).1 = replicate (S n) (init 0)
  ∧ (useConstant_renders init (S n) (fiber_mount, 0)).2.2 = 1.
Proof.
  intros Hv.
  assert (∀ m fb, slots fb !! 0 = Some (RefSlot 1) →
                  refs fb !! 1%positive = Some (init 0) →
                  useConstant_renders init m (fb, 1)
                  = (replicate m (init 0), (fb, 1))) as Hrest.
  { induction m as [|m IH]; intros fb Hs Hr; [done|].
    cbn [useConstant_renders].
    rewrite (useConstant_settled init (init 0)) by done.
    by rewrite IH. }
  assert (useConstant init (fiber_mount, 0)
          = (init 0, (ref_assign 1 (init 0)
                        (Fiber [RefSlot 1] (<[1%positive := VUndefined]> ∅) 2), 1)))
    as Hmount.
  { unfold useConstant, useRef, fiber_mount. cbn [slots lookup list_lookup].
    cbn [next_alloc refs app]. unfold ref_current at 1. cbn [refs].
    rewrite lookup_insert_eq. change (ToBoolean (default VUndefined (Some VUndefined))) with false.
    cbn [negb]. unfold ref_current. cbn [ref_assign refs].
    by rewrite lookup_insert_eq. }
  cbn [useConstant_renders]. rewrite Hmount.
  rewrite Hrest; [done|done|]. cbn [ref_assign refs]. apply lookup_insert_eq.
Qed.

(** ** useLatestFunc *)

Lemma useLatestFunc_rerender func fb :
  slots fb = latest_slots →
  ∃ fb', useLatestFunc func fb
         = (if ToBoolean func then Some first_apply else None, fb')
         ∧ slots fb' = latest_slots ∧ ref_current fb' 1 = func.
Proof.
  destruct fb as [sl rf na]. cbn [slots]. intros ->.
  exists (Fiber latest_slots (<[1%positive := func]> rf) (Pos.succ na)).
  split; [|split; [done|]].
  - unfold useLatestFunc, useLatestRef, useRef, new_closure, useCallback.
    cbn [latest_slots lookup list_lookup slots ref_assign refs next_alloc].
    rewrite bool_decide_eq_true_2 by done.
    unfold ref_current. cbn [refs]. by rewrite lookup_insert_eq.
  - unfold ref_current. cbn [refs]. by rewrite lookup_insert_eq.
Qed.

Lemma useLatestFunc_mount func :
  ∃ fb', useLatestFunc func fiber_mount
         = (if ToBoolean func then Some first_apply else None, fb')
         ∧ slots fb' = latest_slots ∧ ref_current fb' 1 = func.
Proof.
  eexists. split; [|split].
  - unfold useLatestFunc, useLatestRef, useRef, new_closure, useCallback, fiber_mount.
    cbn [lookup list_lookup slots ref_assign next_alloc refs app].
    unfold ref_current. cbn [refs]. rewrite lookup_insert_eq. reflexivity.
  - reflexivity.
  - unfold ref_current. cbn [refs]. by rewrite lookup_insert_eq.
Qed.

Lemma useLatestFunc_renders_stable funcs fb :
  slots fb = latest_slots →
  (∀ i v, funcs !! i = Some v →
          (useLatestFunc_renders funcs fb).1 !! i
          = Some (if ToBoolean v then Some first_apply else None))
  ∧ slots (useLatestFunc_renders funcs fb).2 = latest_slots
  ∧ ∀ v, last funcs = Some v →
         ref_current (useLatestFunc_renders funcs fb).2 1 = v.
Proof.
  revert fb. induction funcs as [|func funcs IH]; intros fb Hs.
  - split; [by intros ?? [=]|]. split; [done|]. by intros ? [=].
  - destruct (useLatestFunc_rerender func fb Hs) as (fb' & Heq & Hs' & Hcur).
    cbn [useLatestFunc_renders]. rewrite Heq.
    destruct (IH fb' Hs') as (Houts & Hslots & Hlast).
    destruct (useLatestFunc_renders funcs fb') as [rs fb2] eqn:Hrs.
    cbn [fst snd] in *. split; [|split; [done|]].
    + intros [|i] v; cbn [lookup list_lookup]; [by intros [= ->]|apply Houts].
    + intros v. destruct funcs as [|func' funcs'].
      * intros [= <-]. cbn [useLatestFunc_renders] in Hrs. by injection Hrs as <- <-.
      * intros Hv. by apply Hlast.
Qed.

(** C9 (amended).  Over the renders of one instance, with [func] a
    function or [undefined] at each: one and the same function object
    [apply] is returned on every render where [func] is defined,
    [undefined] is returned exactly on the renders where [func] is
    undefined, and a call of [apply] after the latest render calls the
    [func] of that render with the arguments given when that [func] is a
    function, and throws a TypeError when it is [undefined]. *)
Theorem useLatestFunc_stable_and_latest (funcs : list value) (func : value)
    (args : list value) :
  forallb func_or_undefined (funcs ++ [func]) = true →
  ∃ apply : closure,
    (∀ i v, (funcs ++ [func]) !! i = Some v →
            (useLatestFunc_renders (funcs ++ [func]) fiber_mount).1 !! i
            = Some (if isUndefined v then None else Some apply))
    ∧ closure_call (useLatestFunc_renders (funcs ++ [func]) fiber_mount).2
                   apply args
      = match func with
        | VFun f => Calls f args
        | _ => TypeError
        end.
Proof.
  intros Hty. exists first_apply.
  assert (∀ v, v ∈ funcs ++ [func] →
               ToBoolean v = negb (isUndefined v)) as Htruthy.
  { intros v Hv. rewrite forallb_forall in Hty.
    apply list_elem_of_In, Hty in Hv. by destruct v. }
  assert ((∀ i v, (funcs ++ [func]) !! i = Some v →
             (useLatestFunc_renders (funcs ++ [func]) fiber_mount).1 !! i
             = Some (if ToBoolean v then Some first_apply else None))
          ∧ ref_current (useLatestFunc_renders (funcs ++ [func]) fiber_mount).2 1
            = func) as [Houts Hcur].
  { destruct (funcs ++ [func]) as [|f0 rest] eqn:Hall.
    { by destruct funcs. }
    assert (last (f0 :: rest) = Some func) as Hlast
      by (rewrite <- Hall; apply last_snoc).
    destruct (useLatestFunc_mount f0) as (fb' & Heq & Hs' & Hcur).
    cbn [useLatestFunc_renders]. rewrite Heq.
    destruct (useLatestFunc_renders_stable rest fb' Hs') as (Houts & _ & Hl).
    destruct (useLatestFunc_renders rest fb') as [rs fb2] eqn:Hrs.
    cbn [fst snd] in *. split.
    - intros [|i] v; cbn [lookup list_lookup]; [by intros [= ->]|apply Houts].
    - destruct rest as [|f1 rest'].
      + cbn [useLatestFunc_renders] in Hrs. injection Hrs as <- <-.
        by injection Hlast as <-.
      + by apply Hl. }
  split.
  - intros i v Hv. rewrite (Houts i v Hv).
    rewrite Htruthy by (by eapply list_elem_of_lookup_2).
    by destruct (isUndefined v).
  - unfold closure_call. cbn [clo_ref first_apply]. rewrite Hcur.
    by destruct func.
Qed.

Lemma useLatestFunc_stable_and_latest_witness :
  forallb func_or_undefined ([VFun 7%positive; VUndefined] ++ [VFun 9%positive]) = true ∧
  ∃ apply : closure,
    (∀ i v, ([VFun 7%positive; VUndefined] ++ [VFun 9%positive]) !! i = Some v →
            (useLatestFunc_renders
               ([VFun 7%positive; VUndefined] ++ [VFun 9%positive]) fiber_mount).1 !! i
            = Some (if isUndefined v then None else Some apply))
    ∧ closure_call
        (useLatestFunc_renders
           ([VFun 7%positive; VUndefined] ++ [VFun 9%positive]) fiber_mount).2
        apply [VNull]
      = Calls 9%positive [VNull].
Proof.
  split; [reflexivity|].
  apply (useLatestFunc_stable_and_latest [VFun 7%positive; VUndefined]
           (VFun 9%positive) [VNull]).
  reflexivity.
Defined.

(** C9 as stated fails once a render has passed [undefined]: the
    function returned at the first render is still in the caller's
    hands, and a call of it does not call any [func]: it throws. *)
Lemma useLatestFunc_call_after_undefined :
  (useLatestFunc_renders [VFun 7%positive; VUndefined] fiber_mount).1
  = [Some first_apply; None]
  ∧ closure_call (useLatestFunc_renders [VFun 7%positive; VUndefined] fiber_mount).2
                 first_apply [VNull]
    = TypeError.
Proof. split; reflexivity. Qed.

(** * Further properties of the library *)

(** ** clamp beyond its documented range *)

Lemma SFcompare_None a b : SFcompare a b = None ↔ a = NaN ∨ b = NaN.
Proof.
  split.
  - destruct a, b; simpl; try discriminate; auto.
  - intros [-> | ->]; [done|]. by destruct a.
Qed.

Lemma SFcompare_Eq_same a b : SFcompare a b = Some Eq → same_number a b = true.
Proof. intros H. unfold same_number, num_eq, SFeqb. by rewrite H. Qed.

Lemma Math_max_NaN a b : Math_max a b = NaN ↔ a = NaN ∨ b = NaN.
Proof.
  rewrite <- SFcompare_None. unfold Math_max.
  destruct (SFcompare a b) as [c|] eqn:Hc; [|done].
  apply SFcompare_not_NaN in Hc as [Ha Hb].
  split; [|done]. destruct c; [destruct a, b|..]; done.
Qed.

Lemma Math_min_NaN a b : Math_min a b = NaN ↔ a = NaN ∨ b = NaN.
Proof.
  rewrite <- SFcompare_None. unfold Math_min.
  destruct (SFcompare a b) as [c|] eqn:Hc; [|done].
  apply SFcompare_not_NaN in Hc as [Ha Hb].
  split; [|done]. destruct c; [destruct a, b|..]; done.
Qed.

Lemma clamp_NaN_iff min value max :
  clamp min value max = NaN ↔ min = NaN ∨ value = NaN ∨ max = NaN.
Proof. unfold clamp. rewrite Math_min_NaN, Math_max_NaN. tauto. Qed.

(** The argument [clamp] settles on, when none of them is NaN. *)
Lemma clamp_selects min value max :
  min ≠ NaN → value ≠ NaN → max ≠ NaN →
  ∃ c c',
    SFcompare value min = Some c
    ∧ SFcompare (match c with Lt => min | _ => value end) max = Some c'
    ∧ SFcompare (clamp min value max)
        (match c' with
         | Gt => max
         | _ => match c with Lt => min | _ => value end
         end) = Some Eq.
Proof.
  intros Hmin Hv Hmax.
  destruct (SFcompare_total value min Hv Hmin) as [c Hc].
  destruct (SFcompare_total (match c with Lt => min | _ => value end) max)
    as [c' Hc']; [by destruct c|done|].
  exists c, c'. split; [done|]. split; [done|]. by apply clamp_select.
Qed.

(** X1.  [clamp] returns NaN exactly when one of its three arguments is
    NaN; otherwise it returns one of its arguments (up to the sign of
    zero), whatever the order of the bounds. *)
Theorem clamp_returns_an_argument (min value max : number) :
  (clamp min value max = NaN ↔ min = NaN ∨ value = NaN ∨ max = NaN)
  ∧ (clamp min value max ≠ NaN →
     same_number (clamp min value max) min = true
     ∨ same_number (clamp min value max) value = true
     ∨ same_number (clamp min value max) max = true).
Proof.
  split; [apply clamp_NaN_iff|]. intros Hr.
  rewrite clamp_NaN_iff in Hr.
  destruct (clamp_selects min value max) as (c & c' & _ & _ & Hsel);
    [tauto..|].
  apply SFcompare_Eq_same in Hsel. destruct c, c'; auto.
Qed.

(** X2.  With the bounds the wrong way round ([max < min]) [clamp]
    returns [max], whatever the value (NaN apart). *)
Theorem clamp_inverted_bounds (min value max : number) :
  num_lt max min = true → value ≠ NaN →
  same_number (clamp min value max) max = true.
Proof.
  intros Hlt Hv. unfold num_lt, SFltb in Hlt.
  destruct (SFcompare max min) as [[]|] eqn:HMm; try done.
  destruct (SFcompare_not_NaN _ _ _ HMm) as [Hmax Hmin].
  pose proof (SFcompare_antisym max min) as HmM. rewrite HMm in HmM. simpl in HmM.
  destruct (clamp_selects min value max) as (c & c' & Hc & Hc' & Hsel);
    [done..|].
  apply SFcompare_Eq_same.
  assert (c' = Gt) as ->; [|done].
  destruct c.
  - pose proof (SFcompare_Eq_l _ _ max Hc) as Heq.
    rewrite Hc', HmM in Heq. congruence.
  - rewrite HmM in Hc'. congruence.
  - pose proof (SFcompare_antisym value min) as Hmv. rewrite Hc in Hmv. simpl in Hmv.
    pose proof (SFcompare_trans max min value Lt Lt HMm Hmv) as HMv.
    rewrite (SFcompare_antisym max value), HMv in Hc' by done. simpl in Hc'. congruence.
Qed.

Lemma clamp_inverted_bounds_witness :
  num_lt (num 3) (num 7) = true ∧ num 0 ≠ NaN ∧
  same_number (clamp (num 7) (num 0) (num 3)) (num 3) = true.
Proof.
  split; [reflexivity|]. split; [discriminate|].
  apply (clamp_inverted_bounds (num 7) (num 0) (num 3)); [reflexivity|discriminate].
Defined.

(** Values that compare equal are clamped alike. *)
Lemma clamp_Eq min value value' max :
  min ≠ NaN → max ≠ NaN →
  SFcompare value value' = Some Eq →
  SFcompare (clamp min value max) (clamp min value' max) = Some Eq.
Proof.
  intros Hmin Hmax Heq. destruct (SFcompare_not_NaN _ _ _ Heq) as [Hv Hv'].
  destruct (clamp_selects min value max) as (c & c' & Hc & Hc' & Hsel); [done..|].
  destruct (clamp_selects min value' max) as (d & d' & Hd & Hd' & Hsel'); [done..|].
  rewrite (SFcompare_Eq_l _ _ _ Heq), Hd in Hc. injection Hc as <-.
  assert (d' = c') as ->.
  { destruct d; [rewrite (SFcompare_Eq_l _ _ _ Heq) in Hc'|..|rewrite (SFcompare_Eq_l _ _ _ Heq) in Hc'];
      congruence. }
  rewrite (SFcompare_Eq_l _ _ _ Hsel).
  pose proof (SFcompare_antisym (clamp min value' max)) as Hflip.
  rewrite (SFcompare_Eq_r _ _ _ Hsel').
  destruct c', d; try (by apply SFcompare_refl); done.
Qed.

(** X3.  [clamp] is idempotent: clamping a clamped value changes
    nothing (up to the sign of zero), for every choice of arguments. *)
Theorem clamp_idempotent (min value max : number) :
  same_number (clamp min (clamp min value max) max) (clamp min value max) = true.
Proof.
  assert (clamp min value max = NaN ∨ clamp min value max ≠ NaN) as [Hr|Hnn]
    by (destruct (clamp min value max); auto).
  { rewrite Hr. by assert (clamp min NaN max = NaN) as -> by (apply clamp_NaN_iff; auto). }
  rewrite clamp_NaN_iff in Hnn.
  assert (min ≠ NaN ∧ value ≠ NaN ∧ max ≠ NaN) as (Hmin & Hv & Hmax) by tauto.
  apply SFcompare_Eq_same.
  destruct (clamp_selects min value max) as (c & c' & Hc & Hc' & Hsel); [done..|].
  set (t := match c' with
            | Gt => max
            | _ => match c with Lt => min | _ => value end
            end) in *.
  assert (t ≠ NaN) as Ht by (unfold t; by destruct c, c').
  rewrite (SFcompare_Eq_r _ _ _ Hsel).
  rewrite (SFcompare_Eq_l _ _ _ (clamp_Eq min _ t max Hmin Hmax Hsel)).
  destruct (clamp_selects min t max) as (d & d' & Hd & Hd' & Hsel'); [done..|].
  rewrite (SFcompare_Eq_l _ _ _ Hsel').
  pose proof (SFcompare_refl _ Hmin) as Hmm.
  pose proof (SFcompare_refl _ Hmax) as HMM.
  pose proof (SFcompare_refl _ Hv) as Hvv.
  pose proof (SFcompare_antisym min max) as Hanti.
  unfold t in *; destruct c, c', d; simpl in *; try congruence;
    destruct d'; simpl in *; try congruence.
  all: rewrite Hd' in Hanti; simpl in Hanti; congruence.
Qed.

(** ** The predicates *)

(** X4.  The kind predicates exclude one another: of [isUndefined],
    [isNil], [isString], [isSymbol], [isFunction], [isNumber], [isArray]
    and [isObject] at most one holds of a value, and none holds exactly
    for booleans, bigints and NaN.  [isDef] is the negation of the first
    two, and a plain object or a date is an object or an array. *)
Theorem kind_predicates_exclusive (h : heap) (v : value) :
  holding (kind_predicates h v) ≤ 1
  ∧ (holding (kind_predicates h v) = 0
     ↔ typeof v = TBoolean ∨ typeof v = TBigInt ∨ Number_isNaN v = true)
  ∧ isDef v = negb (isUndefined v || isNil v)
  ∧ (isPlainObject h v = true → isObject h v = true)
  ∧ (isDate h v = true → isObject h v = true ∨ isArray h v = true).
Proof.
  unfold kind_predicates, isArray, isObject, isPlainObject, isObject.
  destruct v as [| |b|[s|s| |s m e]|z|str|id|f|l]; simpl;
    try (split; [lia|]; split; [by intuition|]; split; [done|]; split; done).
  destruct (o_array (obj_at h l)); simpl;
    (split; [lia|]); (split; [by intuition|]); (split; [done|]); split; auto.
Qed.

(** ** isEmpty on strings *)

Lemma trimStart_nil_iff s : trimStart s = [] ↔ forallb is_trim_space s = true.
Proof.
  split; [|apply trimStart_spaces].
  induction s as [|c s IH]; simpl; [done|].
  destruct (is_trim_space c); [auto|done].
Qed.

Lemma trimStart_head s c s' : trimStart s = c :: s' → is_trim_space c = false.
Proof.
  induction s as [|d s IH]; simpl; [done|].
  destruct (is_trim_space d) eqn:Hd; [auto|]. by intros [= <- _].
Qed.

Lemma forallb_rev {A} (f : A → bool) l : forallb f (rev l) = forallb f l.
Proof.
  induction l as [|a l IH]; simpl; [done|].
  rewrite forallb_app, IH. simpl. rewrite andb_true_r. apply andb_comm.
Qed.

Lemma trim_nil_iff s : trim s = [] ↔ forallb is_trim_space s = true.
Proof.
  split; [|apply trim_spaces].
  unfold trim, trimEnd. intros H.
  assert (trimStart (rev (trimStart s)) = []) as H'.
  { apply (f_equal (@rev _)) in H. by rewrite rev_involutive in H. }
  apply trimStart_nil_iff in H'. rewrite forallb_rev in H'.
  destruct (trimStart s) as [|c s'] eqn:Hs; [by apply trimStart_nil_iff|].
  apply trimStart_head in Hs. simpl in H'. by rewrite Hs in H'.
Qed.

(** X5.  On a string [isEmpty] is true exactly when every code unit is
    whitespace; so a string of whitespace is at once "non-empty" for
    [isNonEmptyString] and "empty" for [isEmpty]. *)
Theorem isEmpty_string_iff_whitespace (h : heap) (s : jsstring) :
  isEmpty h (VStr s) = forallb is_trim_space s
  ∧ (s ≠ [] → forallb is_trim_space s = true →
     isNonEmptyString (VStr s) = true ∧ isEmpty h (VStr s) = true).
Proof.
  assert (isEmpty h (VStr s) = forallb is_trim_space s) as Heq.
  { unfold isEmpty. simpl. destruct (forallb is_trim_space s) eqn:Hws.
    - apply trim_nil_iff in Hws. by rewrite Hws.
    - destruct (trim s) eqn:Ht; [|done].
      apply trim_nil_iff in Ht. congruence. }
  split; [done|]. intros Hne Hws. rewrite Heq, Hws. split; [|done].
  by destruct s.
Qed.

Lemma isEmpty_string_iff_whitespace_witness :
  js "  " ≠ [] ∧ forallb is_trim_space (js "  ") = true ∧
  isNonEmptyString (VStr (js "  ")) = true ∧ isEmpty ∅ (VStr (js "  ")) = true.
Proof.
  split; [discriminate|]. split; [reflexivity|].
  apply (isEmpty_string_iff_whitespace ∅ (js "  ")); [discriminate|reflexivity].
Defined.

(** ** isURL *)

Lemma startsWith_prefix s p : startsWith s p = true ↔ p `prefix_of` s.
Proof.
  revert s. induction p as [|c p IH]; intros s; simpl.
  - split; [intros _; apply prefix_nil|done].
  - destruct s as [|d s]; simpl.
    + split; [done|]. intros [k Hk]. discriminate.
    + rewrite andb_true_iff, N.eqb_eq, IH. split.
      * intros [-> Hp]. by apply prefix_cons.
      * intros [k Hk]. injection Hk as -> ->. split; [done|]. by exists k.
Qed.

Lemma startsWith_take s p n :
  length p ≤ n → startsWith (take n s) p = startsWith s p.
Proof.
  revert s n. induction p as [|c p IH]; intros s n Hn; [done|].
  simpl in Hn. destruct n as [|n]; [lia|].
  destruct s as [|d s]; simpl; [done|]. rewrite IH by lia. done.
Qed.

(** X6.  [isURL] accepts exactly the strings that begin with [http] or
    with [//]; it looks at no more than the first four code units, and
    at nothing that makes a URL well formed. *)
Theorem isURL_prefix_only (url : jsstring) :
  (isURL url = true ↔ js "http" `prefix_of` url ∨ js "//" `prefix_of` url)
  ∧ isURL (take 4 url) = isURL url.
Proof.
  unfold isURL. cbn [existsb]. split.
  - rewrite orb_false_r, orb_true_iff, !startsWith_prefix. done.
  - rewrite !startsWith_take; [done|simpl; lia|simpl; lia].
Qed.

(** ** wrapArray *)

Lemma Array_isArray_alloc (h : heap) elems :
  Array_isArray (<[alloc h := array_literal elems]> h) (VObj (alloc h)) = true.
Proof. unfold Array_isArray, obj_at. by rewrite lookup_insert_eq. Qed.

Lemma alloc_preserves (h : heap) (o : object) l :
  is_Some (h !! l) → <[alloc h := o]> h !! l = h !! l.
Proof. intros Hl. apply lookup_insert_ne. by apply alloc_ne. Qed.

(** X7.  [wrapArray] always returns an array, and wrapping twice is
    wrapping once: an array argument comes back as the same object,
    with no allocation.  For any other argument the result is a new
    array that is empty exactly when the argument is [null] or
    [undefined], and otherwise holds the argument at index 0; no
    existing object is touched. *)
Theorem wrapArray_normalizes (h : heap) (val : value) :
  Array_isArray (wrapArray h val).1 (wrapArray h val).2 = true
  ∧ wrapArray (wrapArray h val).1 (wrapArray h val).2 = wrapArray h val
  ∧ (Array_isArray h val = true → wrapArray h val = (h, val))
  ∧ (Array_isArray h val = false →
     isEmpty (wrapArray h val).1 (wrapArray h val).2 = negb (isDef val)
     ∧ (isDef val = true →
        ∃ l, (wrapArray h val).2 = VObj l
             ∧ Reflect_get (wrapArray h val).1 l (index_key 0) = val))
  ∧ (∀ l, is_Some (h !! l) → (wrapArray h val).1 !! l = h !! l).
Proof.
  assert (Array_isArray (wrapArray h val).1 (wrapArray h val).2 = true) as Harr.
  { unfold wrapArray. destruct (negb (isDef val)); simpl.
    - apply Array_isArray_alloc.
    - destruct (Array_isArray h val) eqn:Ha; simpl; [done|].
      apply Array_isArray_alloc. }
  assert (isDef (wrapArray h val).2 = true) as Hdef.
  { unfold wrapArray. destruct (negb (isDef val)) eqn:Hd; simpl; [done|].
    destruct (Array_isArray h val); simpl; [|done].
    by apply negb_false_iff in Hd. }
  split; [done|]. split; [|split; [|split]].
  - destruct (wrapArray h val) as [h' r]. simpl in *.
    unfold wrapArray. by rewrite Hdef, Harr.
  - intros Ha. unfold wrapArray. rewrite Ha.
    destruct val; simpl in *; done.
  - intros Ha. unfold wrapArray. rewrite Ha.
    destruct (isDef val) eqn:Hd; simpl.
    + split; [|intros _; exists (alloc h)].
      * unfold isEmpty. rewrite Array_isArray_alloc.
        unfold Reflect_get, obj_at. rewrite lookup_insert_eq. reflexivity.
      * split; [done|]. unfold Reflect_get, obj_at. by rewrite lookup_insert_eq.
    + split; [|done].
      unfold isEmpty. rewrite Array_isArray_alloc.
      unfold Reflect_get, obj_at. rewrite lookup_insert_eq. reflexivity.
  - intros l Hl. unfold wrapArray.
    destruct (negb (isDef val)); simpl; [by apply alloc_preserves|].
    destruct (Array_isArray h val); simpl; [done|by apply alloc_preserves].
Qed.

Lemma wrapArray_normalizes_witness :
  Array_isArray nested_heap (VNum (num 1)) = false ∧
  isEmpty (wrapArray nested_heap (VNum (num 1))).1
          (wrapArray nested_heap (VNum (num 1))).2 = false ∧
  isEmpty (wrapArray nested_heap VNull).1 (wrapArray nested_heap VNull).2 = true.
Proof.
  split; [reflexivity|].
  destruct (wrapArray_normalizes nested_heap (VNum (num 1))) as (_ & _ & _ & H1 & _).
  destruct (wrapArray_normalizes nested_heap VNull) as (_ & _ & _ & H2 & _).
  split; [exact (proj1 (H1 eq_refl)) | exact (proj1 (H2 eq_refl))].
Defined.

(** ** padString *)

Lemma length_repeated (fill : jsstring) n :
  length (mjoin (replicate n fill)) = n * length fill.
Proof.
  induction n as [|n IH]; simpl; [done|]. rewrite length_app, IH. lia.
Qed.

Lemma length_truncated_filler (fill : jsstring) n :
  fill ≠ [] → length (truncated_filler fill n) = n.
Proof.
  intros Hne. unfold truncated_filler. rewrite length_take, length_repeated.
  destruct fill; [done|]. simpl. nia.
Qed.

Lemma lookup_repeated (fill : jsstring) n i :
  i < n * length fill →
  mjoin (replicate n fill) !! i = fill !! (i mod length fill).
Proof.
  revert i. induction n as [|n IH]; intros i Hi; [lia|].
  simpl in *. destruct (decide (i < length fill)) as [Hlt|Hge].
  - rewrite lookup_app_l by done. by rewrite Nat.mod_small.
  - rewrite lookup_app_r by lia. rewrite IH by lia. f_equal.
    replace i with ((i - length fill) + 1 * length fill) at 2 by lia.
    rewrite Nat.Div0.mod_add. done.
Qed.

Lemma lookup_truncated_filler (fill : jsstring) n i c :
  truncated_filler fill n !! i = Some c → fill !! (i mod length fill) = Some c.
Proof.
  unfold truncated_filler. intros H.
  apply lookup_take_Some in H as [H Hi].
  destruct (decide (i < n * length fill)) as [Hlt|Hge].
  - by rewrite <- (lookup_repeated fill n i Hlt).
  - apply lookup_lt_Some in H. rewrite length_repeated in H. lia.
Qed.

Section PadStringFacts.
Variable max_string_length : Z.
Variable ToString : value → jsstring.

Lemma String_pad_returns at_start s len fill :
  (ToLength len <= max_string_length)%Z →
  ∃ filler,
    String_pad max_string_length at_start s len fill
    = Returns (if at_start then filler ++ s else s ++ filler)
    ∧ (fill ≠ [] →
       Z.of_nat (length filler + length s)
       = Z.max (ToLength len) (Z.of_nat (length s)))
    ∧ (fill = [] → filler = [])
    ∧ ∀ i c, filler !! i = Some c → fill !! (i mod length fill) = Some c.
Proof.
  intros Hmax. unfold String_pad.
  destruct (Z.leb_spec (ToLength len) (Z.of_nat (length s))) as [Hle|Hgt].
  { exists []. split; [by destruct at_start; rewrite ?app_nil_r|].
    split; [simpl; lia|]. split; [done|].
    intros i c Hi. by rewrite lookup_nil in Hi. }
  destruct (decide (fill = [])) as [->|Hne].
  { exists []. rewrite bool_decide_eq_true_2 by done.
    split; [by destruct at_start; rewrite ?app_nil_r|].
    split; [done|]. split; [done|].
    intros i c Hi. by rewrite lookup_nil in Hi. }
  rewrite bool_decide_eq_false_2 by done.
  rewrite (proj2 (Z.ltb_ge _ _)) by done.
  eexists. split; [reflexivity|]. split; [|split; [done|]].
  - intros _. rewrite length_truncated_filler by done. lia.
  - apply lookup_truncated_filler.
Qed.

Lemma padString_defined v len fill pos :
  isDef v = true →
  padString max_string_length ToString v len fill pos
  = String_pad max_string_length (isUndefined pos || strict_equals pos (VStr (js "start")))
               (String_ ToString v) len fill.
Proof.
  intros Hdef. unfold padString. rewrite Hdef. cbn [negb].
  by destruct (isUndefined pos); [|destruct (strict_equals _ _)].
Qed.

(** X8.  For a defined [v], a non-empty [fill] and a length within the
    engine's longest string, [padString] returns a string as long as
    the longer of [String(v)] and the length asked for, so padding the
    result again changes nothing.  When [String(v)] is shorter than the
    length asked for and that length is beyond the engine's longest
    string, it throws a RangeError.  With an empty [fill] the string
    comes back as it is, and for [null] or [undefined] the result is
    the empty string. *)
Theorem padString_length (v : value) (len : number) (fill : jsstring)
    (pos : value) :
  (isDef v = true → fill ≠ [] → (ToLength len <= max_string_length)%Z →
   ∃ s, padString max_string_length ToString v len fill pos = Returns s
        ∧ Z.of_nat (length s)
          = Z.max (ToLength len) (Z.of_nat (length (String_ ToString v)))
        ∧ padString max_string_length ToString (VStr s) len fill pos = Returns s)
  ∧ (isDef v = true → fill ≠ [] →
     (Z.of_nat (length (String_ ToString v)) < ToLength len)%Z →
     (max_string_length < ToLength len)%Z →
     padString max_string_length ToString v len fill pos = RangeError)
  ∧ (isDef v = true → fill = [] →
     padString max_string_length ToString v len fill pos = Returns (String_ ToString v))
  ∧ (isDef v = false → padString max_string_length ToString v len fill pos = Returns []).
Proof.
  split; [|split; [|split]].
  - intros Hdef Hne Hmax. rewrite padString_defined by done.
    destruct (String_pad_returns
                (isUndefined pos || strict_equals pos (VStr (js "start")))
                (String_ ToString v) len fill Hmax)
      as (filler & Heq & Hlen & _). specialize (Hlen Hne).
    rewrite Heq.
    set (s := if isUndefined pos || strict_equals pos (VStr (js "start"))
              then filler ++ String_ ToString v
              else String_ ToString v ++ filler).
    assert (Z.of_nat (length s)
            = Z.max (ToLength len) (Z.of_nat (length (String_ ToString v))))
      as Hlen'.
    { unfold s. destruct (_ || _); rewrite length_app; lia. }
    exists s. split; [done|]. split; [done|].
    rewrite (padString_defined (VStr s)) by done. cbn [String_].
    unfold String_pad at 1.
    rewrite (proj2 (Z.leb_le _ _)); [done|lia].
  - intros Hdef Hne Hshort Hmax. rewrite padString_defined by done.
    unfold String_pad.
    rewrite (proj2 (Z.leb_gt _ _)) by done.
    rewrite bool_decide_eq_false_2 by done.
    by rewrite (proj2 (Z.ltb_lt _ _)).
  - intros Hdef ->. rewrite padString_defined by done.
    unfold String_pad.
    rewrite bool_decide_eq_true_2 by done. by destruct (_ <=? _)%Z.
  - intros Hdef. unfold padString. by rewrite Hdef.
Qed.

(** X9.  For a length within the engine's longest string, what
    [padString] adds is [fill] repeated from its start and cut where
    the length is reached: the padding goes in front of [String(v)]
    when [pos] is ['start'] or left out, behind it otherwise, and its
    code unit number [i] is code unit number [i mod fill.length] of
    [fill]. *)
Theorem padString_filler (v : value) (len : number) (fill : jsstring)
    (pos : value) :
  isDef v = true → (ToLength len <= max_string_length)%Z →
  ∃ filler,
    padString max_string_length ToString v len fill pos
    = Returns (if isUndefined pos || strict_equals pos (VStr (js "start"))
               then filler ++ String_ ToString v
               else String_ ToString v ++ filler)
    ∧ ∀ i c, filler !! i = Some c → fill !! (i mod length fill) = Some c.
Proof.
  intros Hdef Hmax. rewrite padString_defined by done.
  destruct (String_pad_returns
              (isUndefined pos || strict_equals pos (VStr (js "start")))
              (String_ ToString v) len fill Hmax)
    as (filler & Heq & _ & _ & Hfill).
  exists filler. by split.
Qed.
End PadStringFacts.

Lemma padString_length_witness :
  isDef (VStr (js "abc")) = true ∧ js "0" ≠ [] ∧
  (ToLength (num 5) <= 2 ^ 29 - 24)%Z ∧
  ∃ s, padString (2 ^ 29 - 24) (λ _, []) (VStr (js "abc")) (num 5) (js "0")
         VUndefined = Returns s
       ∧ Z.of_nat (length s) = Z.max (ToLength (num 5)) 3
       ∧ padString (2 ^ 29 - 24) (λ _, []) (VStr s) (num 5) (js "0") VUndefined
         = Returns s.
Proof.
  split; [reflexivity|]. split; [discriminate|]. split; [by vm_compute|].
  exact (proj1 (padString_length (2 ^ 29 - 24) (λ _, []) (VStr (js "abc"))
                  (num 5) (js "0") VUndefined)
           eq_refl ltac:(discriminate) ltac:(by vm_compute)).
Defined.

Lemma padString_filler_witness :
  isDef (VStr (js "abc")) = true ∧ (ToLength (num 5) <= 2 ^ 29 - 24)%Z ∧
  ∃ filler,
    padString (2 ^ 29 - 24) (λ _, []) (VStr (js "abc")) (num 5) (js "0")
      (VStr (js "end"))
    = Returns (if isUndefined (VStr (js "end"))
                  || strict_equals (VStr (js "end")) (VStr (js "start"))
               then filler ++ js "abc" else js "abc" ++ filler)
    ∧ ∀ i c, filler !! i = Some c → js "0" !! (i mod length (js "0")) = Some c.
Proof.
  split; [reflexivity|]. split; [by vm_compute|].
  apply (padString_filler (2 ^ 29 - 24) (λ _, []) (VStr (js "abc")) (num 5)
           (js "0") (VStr (js "end"))); [reflexivity|by vm_compute].
Defined.

(** ** The objects pick and omit build *)

Lemma props_assign_keys k v ps k' :
  k' ∈ (props_assign k v ps).*1 ↔ k' = k ∨ k' ∈ ps.*1.
Proof.
  induction ps as [|[k0 p0] ps IH]; simpl.
  - rewrite elem_of_cons, elem_of_nil. tauto.
  - case_decide as Hk; simpl; rewrite !elem_of_cons.
    + subst. tauto.
    + rewrite IH. tauto.
Qed.

Lemma props_assign_NoDup k v ps : NoDup ps.*1 → NoDup (props_assign k v ps).*1.
Proof.
  induction ps as [|[k0 p0] ps IH]; simpl; intros Hnd.
  - apply NoDup_singleton.
  - apply NoDup_cons in Hnd as [Hnotin Hnd].
    case_decide as Hk; simpl; apply NoDup_cons; [done|].
    split; [|auto]. rewrite props_assign_keys. intros [->|?]; done.
Qed.

Lemma props_assign_enumerable k v ps :
  Forall (λ kp : key * prop, p_enumerable kp.2 = true) ps →
  Forall (λ kp : key * prop, p_enumerable kp.2 = true) (props_assign k v ps).
Proof.
  induction 1 as [|[k0 p0] ps Hp Hps IH]; simpl.
  - by repeat constructor.
  - case_decide; constructor; auto.
Qed.

(** What holds of the accumulator before the walk holds after it. *)
Lemma pick_fields_shape o keys acc :
  NoDup (o_props acc).*1 →
  Forall (λ kp : key * prop, p_enumerable kp.2 = true) (o_props acc) →
  o_array (pick_fields o keys acc) = o_array acc
  ∧ o_proto (pick_fields o keys acc) = o_proto acc
  ∧ NoDup (o_props (pick_fields o keys acc)).*1
  ∧ Forall (λ kp : key * prop, p_enumerable kp.2 = true)
           (o_props (pick_fields o keys acc)).
Proof.
  revert acc. induction keys as [|k keys IH]; intros acc Hnd Hen; [done|].
  change (pick_fields o (k :: keys) acc)
    with (pick_fields o keys
            (if object_has o k then object_assign acc k (object_get o k)
             else acc)).
  destruct (object_has o k); [|by apply IH].
  destruct (IH (object_assign acc k (object_get o k))) as (-> & -> & ? & ?);
    [by apply props_assign_NoDup|by apply props_assign_enumerable|done].
Qed.

Lemma Object_keys_elem_of (h : heap) l k :
  k ∈ Object_keys h l ↔
  ∃ p, (k, p) ∈ o_props (obj_at h l) ∧ p_enumerable p = true
       ∧ is_string_key k = true.
Proof.
  unfold Object_keys. rewrite list_elem_of_omap. split.
  - intros ([k' p] & Hin & Hk). simpl in Hk. exists p.
    destruct k'; [|done]. destruct (p_enumerable p) eqn:Hp; [|done].
    injection Hk as <-. done.
  - intros (p & Hin & Hp & Hk). exists (k, p). split; [done|]. simpl.
    destruct k; [|done]. by rewrite Hp.
Qed.

Lemma Object_keys_NoDup (h : heap) l :
  NoDup (Reflect_ownKeys h l) → NoDup (Object_keys h l).
Proof.
  unfold Object_keys, Reflect_ownKeys.
  induction (o_props (obj_at h l)) as [|[k p] ps IH]; simpl; [constructor|].
  intros [Hnotin Hnd]%NoDup_cons.
  destruct k; simpl; [|auto]. destruct (p_enumerable p); simpl; [|auto].
  apply NoDup_cons. split; [|auto].
  intros ([k' p'] & Hin & Hk)%list_elem_of_omap. simpl in Hk.
  apply Hnotin. apply list_elem_of_fmap. exists (k', p'). split; [|done].
  destruct k'; [|done]. destruct (p_enumerable p'); [|done]. by injection Hk as ->.
Qed.

Lemma every_key_true check keys :
  (∀ k, k ∈ keys → check k = Some true) → every_key check keys = Some true.
Proof.
  induction keys as [|k keys IH]; intros H; [done|]. simpl.
  rewrite (H k) by left. apply IH. intros ??. apply H. by right.
Qed.

Lemma copyable_props o :
  copyable o = true →
  NoDup (o_props o).*1
  ∧ (proto_key ∉ (o_props o).*1)
  ∧ ∀ k p, (k, p) ∈ o_props o →
           p_enumerable p = true ∧ is_string_key k = true
           ∧ p_value p ≠ VNum NaN.
Proof.
  unfold copyable. intros [Hnd Hall]%andb_true_iff.
  apply bool_decide_eq_true in Hnd. rewrite forallb_forall in Hall.
  split; [done|]. split.
  - intros ([k p] & Hk & Hin)%list_elem_of_fmap. cbn [fst] in Hk. subst k.
    apply list_elem_of_In, Hall in Hin. cbv beta in Hin. cbn [fst snd] in Hin.
    apply andb_true_iff in Hin as [[_ Hk]%andb_true_iff _].
    by apply negb_true_iff, bool_decide_eq_false in Hk.
  - intros k p Hin. apply list_elem_of_In, Hall in Hin. simpl in Hin.
    apply andb_true_iff in Hin as [[[Hen Hstr]%andb_true_iff _]%andb_true_iff Hnan].
    split; [done|]. split; [done|]. intros Heq. rewrite Heq in Hnan. done.
Qed.

Lemma own_value_elem_of o k v :
  own_value o k = Some v → ∃ p, (k, p) ∈ o_props o ∧ p_value p = v.
Proof.
  unfold own_value. destruct (props_get k (o_props o)) as [p|] eqn:Hp; [|done].
  intros [= <-]. exists p. split; [|done]. by apply props_get_elem_of.
Qed.

Lemma isEquals_objects fuel (h : heap) lx ly :
  lx ≠ ly →
  isEquals (S fuel) h (VObj lx) (VObj ly)
  = if negb (length (Object_keys h lx) =? length (Object_keys h ly))
    then Some false
    else every_key
           (λ k, if negb (Reflect_has h ly k) then Some false
                 else isEquals fuel h (Reflect_get h lx k) (Reflect_get h ly k))
           (Object_keys h lx).
Proof.
  intros Hne. cbn [isEquals strict_equals].
  by rewrite (proj2 (Pos.eqb_neq _ _) Hne).
Qed.

Lemma includes_app keys1 keys2 a :
  includes (keys1 ++ keys2) a = includes keys1 a || includes keys2 a.
Proof. apply existsb_app. Qed.

Section PickOmitShape.
Variable Number_toString : number → jsstring.
Variable function_chain : fid → list frame.

Lemma pick_object h target o keys :
  h !! target = Some o →
  proto_key ∉ ToPropertyKey Number_toString <$> keys →
  obj_at (pick Number_toString function_chain h target keys).1
         (pick Number_toString function_chain h target keys).2
  = pick_fields o (ToPropertyKey Number_toString <$> keys) empty_object
  ∧ h !! (pick Number_toString function_chain h target keys).2 = None.
Proof.
  intros Ho Hkeys.
  rewrite (pick_result Number_toString function_chain _ _ o) by done.
  simpl. split.
  - unfold obj_at. by rewrite lookup_insert_eq.
  - apply alloc_fresh.
Qed.

Lemma pick_shape h o obj keys :
  h !! o = Some obj →
  proto_key ∉ ToPropertyKey Number_toString <$> keys →
  isPlainObject (pick Number_toString function_chain h o keys).1
                (VObj (pick Number_toString function_chain h o keys).2) = true
  ∧ Array_isArray (pick Number_toString function_chain h o keys).1
                  (VObj (pick Number_toString function_chain h o keys).2) = false
  ∧ NoDup (Reflect_ownKeys (pick Number_toString function_chain h o keys).1
                           (pick Number_toString function_chain h o keys).2)
  ∧ Forall (λ kp : key * prop, p_enumerable kp.2 = true)
           (o_props (obj_at (pick Number_toString function_chain h o keys).1
                            (pick Number_toString function_chain h o keys).2)).
Proof.
  intros Ho Hkeys. destruct (pick_object h o obj keys Ho Hkeys) as [Hobj _].
  destruct (pick_fields_shape obj (ToPropertyKey Number_toString <$> keys)
              empty_object) as (Ha & Hp & Hnd & Hen);
    [constructor|constructor|].
  unfold isPlainObject, isObject, Array_isArray, Reflect_ownKeys.
  rewrite Hobj. unfold proto_is_Object_prototype. rewrite Ha, Hp. done.
Qed.

Lemma pick_Object_keys h o obj keys k :
  h !! o = Some obj →
  proto_key ∉ ToPropertyKey Number_toString <$> keys →
  k ∈ Object_keys (pick Number_toString function_chain h o keys).1
                  (pick Number_toString function_chain h o keys).2
  ↔ k ∈ ToPropertyKey Number_toString <$> keys
    ∧ object_has obj k = true ∧ is_string_key k = true.
Proof.
  intros Ho Hkeys. destruct (pick_shape h o obj keys Ho Hkeys) as (_ & _ & _ & Hen).
  rewrite Object_keys_elem_of.
  pose proof (pick_own_entry Number_toString function_chain h o obj keys k Ho Hkeys)
    as Hown.
  unfold own_entry in Hown.
  set (r := pick Number_toString function_chain h o keys) in *.
  split.
  - intros (p & Hin & _ & Hk).
    assert (is_Some (own_value (obj_at r.1 r.2) k)) as Hs.
    { apply own_value_is_Some, list_elem_of_fmap. by exists (k, p). }
    rewrite Hown in Hs.
    destruct (bool_decide (k ∈ ToPropertyKey Number_toString <$> keys)) eqn:Hk1;
      [|by destruct Hs].
    destruct (object_has obj k) eqn:Hk2; [|by destruct Hs].
    by apply bool_decide_eq_true in Hk1.
  - intros (Hk1 & Hk2 & Hk).
    assert (is_Some (own_value (obj_at r.1 r.2) k)) as Hs.
    { rewrite Hown, (bool_decide_eq_true_2 _ Hk1), Hk2. eauto. }
    apply own_value_is_Some in Hs as ([k' p] & -> & Hin)%list_elem_of_fmap.
    exists p. split; [done|]. split; [|done].
    rewrite Forall_forall in Hen. apply (Hen _ Hin).
Qed.

Lemma pick_allocated h o ks :
  is_Some (h !! o) →
  proto_key ∉ ToPropertyKey Number_toString <$> ks →
  is_Some ((pick Number_toString function_chain h o ks).1
           !! (pick Number_toString function_chain h o ks).2).
Proof.
  intros [obj Ho] Hks.
  rewrite (pick_result Number_toString function_chain _ _ obj) by done. simpl.
  rewrite lookup_insert_eq. eauto.
Qed.

(** X10.  Apart from the key [__proto__], what [pick] and [omit]
    return is a new plain object: not an array, with [Object.prototype]
    as its prototype, whatever the target was; no key appears in it
    twice, and all its properties are enumerable, so [Object.keys] lists
    every string key it has. *)
Theorem pick_builds_plain_object (h : heap) (o : loc) (ks : list keyarg) :
  is_Some (h !! o) →
  proto_key ∉ ToPropertyKey Number_toString <$> ks →
  h !! (pick Number_toString function_chain h o ks).2 = None
  ∧ isPlainObject (pick Number_toString function_chain h o ks).1
                  (VObj (pick Number_toString function_chain h o ks).2) = true
  ∧ NoDup (Reflect_ownKeys (pick Number_toString function_chain h o ks).1
                           (pick Number_toString function_chain h o ks).2)
  ∧ (∀ k, k ∈ Object_keys (pick Number_toString function_chain h o ks).1
                          (pick Number_toString function_chain h o ks).2
          ↔ k ∈ Reflect_ownKeys (pick Number_toString function_chain h o ks).1
                                (pick Number_toString function_chain h o ks).2
            ∧ is_string_key k = true)
  ∧ (∀ ks', proto_key ∉ Reflect_ownKeys h o →
            isPlainObject (omit Number_toString function_chain h o ks').1
                          (VObj (omit Number_toString function_chain h o ks').2)
            = true).
Proof.
  intros [obj Ho] Hks.
  destruct (pick_shape h o obj ks Ho Hks) as (Hplain & _ & Hnd & Hen).
  split; [by apply (pick_object h o obj ks)|]. split; [done|]. split; [done|].
  split.
  - intros k. rewrite Object_keys_elem_of. unfold Reflect_ownKeys. split.
    + intros (p & Hin & _ & Hk). split; [|done].
      apply list_elem_of_fmap. by exists (k, p).
    + intros [([k' p] & -> & Hin)%list_elem_of_fmap Hk]. exists p.
      split; [done|]. split; [|done].
      rewrite Forall_forall in Hen. apply (Hen _ Hin).
  - intros ks' Hown. unfold omit.
    apply (pick_shape h o obj); [done|].
    apply (omit_keys Number_toString h o obj); [done|].
    unfold Reflect_ownKeys, obj_at in Hown. by rewrite Ho in Hown.
Qed.

(** X11.  For a target without an own [__proto__], [omit] composes:
    omitting [ks2] from what omitting [ks1] left is omitting both lists
    at once.  And omitting from [pick(o, ks)] the keys that were picked
    leaves nothing, when [ks] holds strings and symbols only. *)
Theorem omit_composes (h : heap) (o : loc) (ks1 ks2 : list keyarg) (k : key) :
  is_Some (h !! o) →
  proto_key ∉ Reflect_ownKeys h o →
  own_entry (omit Number_toString function_chain
               (omit Number_toString function_chain h o ks1).1
               (omit Number_toString function_chain h o ks1).2 ks2) k
  = own_entry (omit Number_toString function_chain h o (ks1 ++ ks2)) k
  ∧ (forallb is_name ks1 = true →
     proto_key ∉ ToPropertyKey Number_toString <$> ks1 →
     own_entry (omit Number_toString function_chain
                  (pick Number_toString function_chain h o ks1).1
                  (pick Number_toString function_chain h o ks1).2 ks1) k
     = None).
Proof.
  intros Hs Hown. pose proof Hs as [obj Ho].
  unfold Reflect_ownKeys, obj_at in Hown. rewrite Ho in Hown. simpl in Hown.
  split.
  - destruct (pick_allocated h o
                (key_arg <$> filter (λ key, negb (includes ks1 (key_arg key)) = true)
                                    (Reflect_ownKeys h o)) Hs)
      as [obj1 Ho1]; [by apply (omit_keys Number_toString h o obj)|].
    assert (∀ k', own_value obj1 k'
                  = if includes ks1 (key_arg k') then None else own_value obj k')
      as H1.
    { intros k'.
      pose proof (omit_own_entry Number_toString function_chain h o obj ks1 k' Ho Hown)
        as H1.
      unfold own_entry, omit, obj_at in H1. by rewrite Ho1 in H1. }
    assert (proto_key ∉ (o_props obj1).*1) as Hown1.
    { rewrite <- own_value_is_Some, H1.
      destruct (includes ks1 (key_arg proto_key)); [by intros []|].
      by rewrite own_value_is_Some. }
    rewrite (omit_own_entry _ _ _ _ obj1) by done.
    rewrite (omit_own_entry _ _ _ _ obj) by done.
    rewrite H1, includes_app.
    by destruct (includes ks1 (key_arg k)), (includes ks2 (key_arg k)).
  - intros Hnames Hks.
    destruct (pick_allocated h o ks1 Hs Hks) as [obj1 Ho1].
    assert (∀ k', own_value obj1 k'
                  = if bool_decide (k' ∈ ToPropertyKey Number_toString <$> ks1)
                       && object_has obj k'
                    then Some (object_get obj k') else None) as H1.
    { intros k'.
      pose proof (pick_own_entry Number_toString function_chain h o obj ks1 k' Ho Hks)
        as H1.
      unfold own_entry, obj_at in H1. by rewrite Ho1 in H1. }
    assert (proto_key ∉ (o_props obj1).*1) as Hown1.
    { rewrite <- own_value_is_Some, H1.
      rewrite (bool_decide_eq_false_2 _ Hks). by intros []. }
    rewrite (omit_own_entry _ _ _ _ obj1) by done.
    rewrite (named_includes Number_toString ks1 k Hnames), H1.
    by destruct (bool_decide (k ∈ ToPropertyKey Number_toString <$> ks1)).
Qed.

(** X12.  For a key list without [__proto__], [isEmpty(pick(o, ks))] is
    true exactly when no string key of [ks] is present on [o]: keys
    that are symbols are picked, but do not count. *)
Theorem isEmpty_pick (h : heap) (o : loc) (ks : list keyarg) :
  is_Some (h !! o) →
  proto_key ∉ ToPropertyKey Number_toString <$> ks →
  isEmpty (pick Number_toString function_chain h o ks).1
          (VObj (pick Number_toString function_chain h o ks).2) = true
  ↔ ∀ k, k ∈ ToPropertyKey Number_toString <$> ks →
         Reflect_has h o k = true → is_string_key k = false.
Proof.
  intros [obj Ho] Hks.
  destruct (pick_shape h o obj ks Ho Hks) as (Hplain & Harr & _ & _).
  unfold isEmpty. rewrite Harr, Hplain.
  assert (obj_at h o = obj) as Hobj by (unfold obj_at; by rewrite Ho).
  unfold Reflect_has. rewrite Hobj. rewrite Nat.eqb_eq.
  set (r := pick Number_toString function_chain h o ks) in *. split.
  - intros Hlen k Hk Hhas. destruct (is_string_key k) eqn:Hstr; [|done].
    assert (k ∈ Object_keys r.1 r.2) as Hin
      by by apply (pick_Object_keys h o obj).
    apply nil_length_inv in Hlen. rewrite Hlen in Hin. by apply elem_of_nil in Hin.
  - intros Hnone.
    destruct (Object_keys r.1 r.2) as [|k rest] eqn:Hkeys; [done|].
    assert (k ∈ Object_keys r.1 r.2) as Hin by (rewrite Hkeys; left).
    apply (pick_Object_keys h o obj) in Hin as (Hk & Hhas & Hstr); [|done..].
    rewrite (Hnone k Hk Hhas) in Hstr. done.
Qed.

(** X13.  A shallow copy compares equal to its original: for an
    object whose properties are all enumerable, named by strings other
    than [__proto__] and different from NaN, [isEquals(o, omit(o, []))]
    and [isEquals(omit(o, []), o)] are true after one level of
    recursion, nested objects being shared, not copied. *)
Theorem isEquals_shallow_copy (h : heap) (o : loc) (obj : object) :
  h !! o = Some obj → copyable obj = true →
  isEquals 2 (omit Number_toString function_chain h o []).1 (VObj o)
             (VObj (omit Number_toString function_chain h o []).2) = Some true
  ∧ isEquals 2 (omit Number_toString function_chain h o []).1
               (VObj (omit Number_toString function_chain h o []).2) (VObj o)
    = Some true.
Proof.
  intros Ho Hcopy. destruct (copyable_props obj Hcopy) as (Hnd & Hproto & Hprops).
  set (keys := filter (λ key, negb (includes [] (key_arg key)) = true)
                      (Reflect_ownKeys h o)).
  assert (omit Number_toString function_chain h o []
          = pick Number_toString function_chain h o (key_arg <$> keys)) as -> by done.
  assert (proto_key ∉ ToPropertyKey Number_toString <$> (key_arg <$> keys)) as Hkk
    by by apply (omit_keys Number_toString h o obj).
  pose proof (ToPropertyKey_key_args Number_toString keys) as Hnamed.
  destruct (pick_object h o obj (key_arg <$> keys) Ho Hkk) as [Hres Hfresh].
  destruct (pick_shape h o obj (key_arg <$> keys) Ho Hkk) as (_ & _ & Hnd' & _).
  pose proof (λ k, pick_Object_keys h o obj (key_arg <$> keys) k Ho Hkk) as Hpk.
  pose proof (λ k, pick_own_entry Number_toString function_chain h o obj
                     (key_arg <$> keys) k Ho Hkk) as Hpe.
  pose proof (pick_preserves Number_toString function_chain h o obj
                (key_arg <$> keys) o Ho Hkk) as Hpp.
  rewrite Hnamed in Hpk, Hpe.
  set (hm := (pick Number_toString function_chain h o (key_arg <$> keys)).1) in *.
  set (m := (pick Number_toString function_chain h o (key_arg <$> keys)).2) in *.
  assert (o ≠ m) as Hom by (intros Heq; rewrite Heq in Ho; congruence).
  assert (obj_at hm o = obj) as Hobj.
  { unfold obj_at. rewrite Hpp by eauto. by rewrite Ho. }
  assert (∀ k, k ∈ keys ↔ k ∈ (o_props obj).*1) as Hkeys.
  { intros k. unfold keys, includes, Reflect_ownKeys, obj_at.
    rewrite Ho, list_elem_of_filter. simpl. tauto. }
  assert (∀ k, k ∈ Object_keys hm o ↔ k ∈ (o_props obj).*1) as Hxk.
  { intros k. rewrite Object_keys_elem_of, Hobj. split.
    - intros (p & Hin & _). apply list_elem_of_fmap. by exists (k, p).
    - intros ([k' p] & -> & Hin)%list_elem_of_fmap. exists p.
      destruct (Hprops _ _ Hin) as (? & ? & _). done. }
  assert (∀ k, k ∈ (o_props obj).*1 →
               object_has obj k = true
               ∧ ∃ v, object_get obj k = v ∧ v ≠ VNum NaN
                      ∧ own_value obj k = Some v) as Hown.
  { intros k Hk. apply own_value_is_Some in Hk as [v Hv].
    unfold object_has, object_get. rewrite Hv. split; [done|].
    exists v. split; [done|]. split; [|done].
    apply own_value_elem_of in Hv as (p & Hin & <-).
    by destruct (Hprops _ _ Hin) as (_ & _ & ?). }
  assert (∀ k, k ∈ Object_keys hm m ↔ k ∈ (o_props obj).*1) as Hyk.
  { intros k. rewrite (Hpk k).
    rewrite Hkeys. split; [tauto|]. intros Hk. split; [done|].
    split; [by apply Hown|].
    apply list_elem_of_fmap in Hk as ([k' p] & -> & Hin).
    by destruct (Hprops _ _ Hin) as (_ & ? & _). }
  assert (length (Object_keys hm o) = length (Object_keys hm m)) as Hlen.
  { apply Permutation_length, NoDup_Permutation.
    - apply Object_keys_NoDup. unfold Reflect_ownKeys. by rewrite Hobj.
    - by apply Object_keys_NoDup.
    - intros k. by rewrite Hxk, Hyk. }
  assert (∀ k, k ∈ (o_props obj).*1 →
               Reflect_has hm m k = true ∧ Reflect_has hm o k = true
               ∧ Reflect_get hm m k = Reflect_get hm o k
               ∧ Reflect_get hm o k ≠ VNum NaN) as Hfield.
  { intros k Hk. destruct (Hown k Hk) as (Hhas & v & Hget & Hv & Hval).
    pose proof (Hpe k) as Hent.
    unfold own_entry in Hent. fold hm m in Hent.
    rewrite (bool_decide_eq_true_2 (k ∈ keys)), Hhas in Hent by by apply Hkeys.
    simpl in Hent. unfold Reflect_has, Reflect_get, object_has, object_get.
    rewrite Hent, Hobj, Hval. simpl. rewrite Hget. done. }
  split.
  - rewrite isEquals_objects by done. rewrite Hlen, Nat.eqb_refl. cbn [negb].
    apply every_key_true. intros k Hk. apply Hxk in Hk.
    destruct (Hfield k Hk) as (-> & _ & -> & Hv). cbn [negb isEquals].
    by rewrite strict_equals_refl.
  - rewrite isEquals_objects by done. rewrite Hlen, Nat.eqb_refl. cbn [negb].
    apply every_key_true. intros k Hk. apply Hyk in Hk.
    destruct (Hfield k Hk) as (_ & -> & -> & Hv). cbn [negb isEquals].
    by rewrite strict_equals_refl.
Qed.
End PickOmitShape.

Lemma pick_builds_plain_object_witness :
  is_Some (abc_heap !! 1%positive) ∧
  (proto_key ∉ ToPropertyKey (λ _, []) <$> [AStr (js "a")]) ∧
  isPlainObject (pick (λ _, []) (λ _, []) abc_heap 1%positive [AStr (js "a")]).1
                (VObj (pick (λ _, []) (λ _, []) abc_heap 1%positive
                         [AStr (js "a")]).2) = true.
Proof.
  assert (is_Some (abc_heap !! 1%positive)) as Hs
    by (exists (obj_at abc_heap 1%positive); reflexivity).
  assert (proto_key ∉ ToPropertyKey (λ _, []) <$> [AStr (js "a")]) as Hks
    by by apply (bool_decide_eq_true_1 (proto_key ∉ _)).
  split; [exact Hs|]. split; [exact Hks|].
  exact (proj1 (proj2 (pick_builds_plain_object (λ _, []) (λ _, []) abc_heap
                         1%positive [AStr (js "a")] Hs Hks))).
Defined.

Lemma omit_composes_witness :
  is_Some (abc_heap !! 1%positive) ∧
  (proto_key ∉ Reflect_ownKeys abc_heap 1%positive) ∧
  own_entry (omit (λ _, []) (λ _, [])
               (omit (λ _, []) (λ _, []) abc_heap 1%positive [AStr (js "a")]).1
               (omit (λ _, []) (λ _, []) abc_heap 1%positive [AStr (js "a")]).2
               [ANum (num 7); AStr (js "b")]) (KStr (js "c"))
  = own_entry (omit (λ _, []) (λ _, []) abc_heap 1%positive
                 ([AStr (js "a")] ++ [ANum (num 7); AStr (js "b")]))
              (KStr (js "c")).
Proof.
  assert (is_Some (abc_heap !! 1%positive)) as Hs
    by (exists (obj_at abc_heap 1%positive); reflexivity).
  assert (proto_key ∉ Reflect_ownKeys abc_heap 1%positive) as Hown
    by by apply (bool_decide_eq_true_1 (proto_key ∉ _)).
  split; [exact Hs|]. split; [exact Hown|].
  exact (proj1 (omit_composes (λ _, []) (λ _, []) abc_heap 1%positive
                  [AStr (js "a")] [ANum (num 7); AStr (js "b")] (KStr (js "c"))
                  Hs Hown)).
Defined.

Lemma isEmpty_pick_witness :
  is_Some (abc_heap !! 1%positive) ∧
  (proto_key ∉ ToPropertyKey (λ _, []) <$> [AStr (js "z"); ASym 1]) ∧
  (isEmpty (pick (λ _, []) (λ _, []) abc_heap 1%positive
              [AStr (js "z"); ASym 1]).1
           (VObj (pick (λ _, []) (λ _, []) abc_heap 1%positive
                    [AStr (js "z"); ASym 1]).2) = true
   ↔ ∀ k, k ∈ ToPropertyKey (λ _, []) <$> [AStr (js "z"); ASym 1%positive] →
          Reflect_has abc_heap 1%positive k = true → is_string_key k = false).
Proof.
  assert (is_Some (abc_heap !! 1%positive)) as Hs
    by (exists (obj_at abc_heap 1%positive); reflexivity).
  assert (proto_key ∉ ToPropertyKey (λ _, []) <$> [AStr (js "z"); ASym 1]) as Hks
    by by apply (bool_decide_eq_true_1 (proto_key ∉ _)).
  split; [exact Hs|]. split; [exact Hks|].
  exact (isEmpty_pick (λ _, []) (λ _, []) abc_heap 1%positive
           [AStr (js "z"); ASym 1%positive] Hs Hks).
Defined.

Lemma isEquals_shallow_copy_witness :
  abc_heap !! 1%positive = Some (obj_at abc_heap 1%positive) ∧
  copyable (obj_at abc_heap 1%positive) = true ∧
  isEquals 2 (omit (λ _, []) (λ _, []) abc_heap 1%positive []).1 (VObj 1%positive)
             (VObj (omit (λ _, []) (λ _, []) abc_heap 1%positive []).2)
  = Some true.
Proof.
  split; [reflexivity|]. split; [reflexivity|].
  exact (proj1 (isEquals_shallow_copy (λ _, []) (λ _, []) abc_heap 1%positive
                  (obj_at abc_heap 1%positive) eq_refl eq_refl)).
Defined.

(** ** pipe chains *)

Lemma compose_left_to_right_app call fs1 fs2 v :
  compose_left_to_right call (fs1 ++ fs2) v
  = compose_left_to_right call fs2 (compose_left_to_right call fs1 v).
Proof. revert v. induction fs1 as [|f fs1 IH]; intros v; simpl; auto. Qed.

Lemma function_steps_filter steps :
  function_steps (filter (λ s, isFunction s = true) steps) = function_steps steps.
Proof.
  induction steps as [|s steps IH]; [done|].
  rewrite filter_cons. destruct s; simpl; try done. by rewrite IH.
Qed.

(** X14.  A [pipe] chain can be cut anywhere: running the steps
    [steps1 ++ steps2] on [v] is running [steps2] on what [steps1]
    returns for [v].  And a step that is not a function is skipped
    whatever it is, truthy values included. *)
Theorem pipe_chain_splits (call : fid → value → value) (v : value)
    (steps1 steps2 : list value) :
  pipe_chain call (pipe v) (steps1 ++ steps2)
  = pipe_chain call (pipe v) steps1
      ≫= (λ v', pipe_chain call (pipe v') steps2)
  ∧ pipe_chain call (pipe v) steps1
    = pipe_chain call (pipe v) (filter (λ s, isFunction s = true) steps1).
Proof.
  rewrite !pipe_chain_compose. simpl. rewrite pipe_chain_compose. split.
  - unfold function_steps. by rewrite omap_app, compose_left_to_right_app.
  - by rewrite function_steps_filter.
Qed.

(** ** debounce: which calls get through *)

Lemma followed_by_quiet_cons delay c c' rest :
  followed_by_quiet delay (c :: c' :: rest)
  = if (ev_time c + delay <=? ev_time c')%Z
    then c :: followed_by_quiet delay (c' :: rest)
    else followed_by_quiet delay (c' :: rest).
Proof. done. Qed.

Lemma followed_by_quiet_last delay calls :
  last (followed_by_quiet delay calls) = last calls.
Proof.
  induction calls as [|c [|c' rest] IH]; [done..|].
  rewrite followed_by_quiet_cons. destruct (_ <=? _)%Z; [|done].
  change (last (c :: c' :: rest)) with (last (c' :: rest)). rewrite <- IH.
  destruct (followed_by_quiet delay (c' :: rest)) as [|x l]; [|done].
  assert (is_Some (last (c' :: rest))) as [y Hy] by by apply last_is_Some.
  rewrite Hy in IH. done.
Qed.

Lemma followed_by_quiet_sublist delay calls :
  followed_by_quiet delay calls `sublist_of` calls.
Proof.
  induction calls as [|c [|c' rest] IH]; [done..|].
  rewrite followed_by_quiet_cons. destruct (_ <=? _)%Z.
  - by apply sublist_skip.
  - by apply sublist_cons.
Qed.

Lemma followed_by_quiet_well_spaced delay calls :
  well_spaced delay calls = true → followed_by_quiet delay calls = calls.
Proof.
  induction calls as [|c [|c' rest] IH]; [done..|].
  change (well_spaced delay (c :: c' :: rest))
    with ((ev_time c + delay <=? ev_time c')%Z && well_spaced delay (c' :: rest)).
  intros [Hgap Hrest]%andb_true_iff.
  rewrite followed_by_quiet_cons, Hgap. f_equal. by apply IH.
Qed.



(** ** throttle inside one interval *)

Lemma throttle_from_cons delay call rest w c w1 c1 w2 c2 :
  advance throttle_fire (ev_time call) w c = (w1, c1) →
  throttled delay (ev_args call) w1 c1 = (w2, c2) →
  throttle_from delay (call :: rest) w c = throttle_from delay rest w2 c2.
Proof.
  intros H1 H2. unfold throttle_from. cbn [throttle_calls]. by rewrite H1, H2.
Qed.

(** A call inside the interval re-arms the one pending timer. *)
Lemma throttled_rearms delay a t t0 q id n log :
  (0 < delay < 2 ^ 31)%Z → t0 ≠ 0%Z → (t < t0 + delay)%Z →
  (q = [] ∧ id = None) ∨ (∃ i due p, q = [Timer i due p] ∧ id = Some i) →
  throttled delay a (Loop t q n) (ThrottleClosure (Some t0) id log)
  = (Loop t [Timer n (t + delay) (a, t)] (Pos.succ n),
     ThrottleClosure (Some t0) (Some n) log).
Proof.
  intros Hd Ht0 Ht Hq. unfold throttled, within_interval, Date_now.
  cbn [previous clock defineTimer throttle_log].
  rewrite (proj2 (Z.eqb_neq _ _) Ht0), (proj2 (Z.ltb_lt _ _) Ht). cbn [negb andb].
  assert (match id with
          | Some i => clearTimeout i (Loop t q n)
          | None => Loop t q n
          end = Loop t [] n) as ->.
  { destruct Hq as [[-> ->]|(i & due & p & -> & ->)];
      [done|apply clearTimeout_only]. }
  unfold setTimeout. cbn [clock queue next_id app]. by rewrite timer_delay_in_range by lia.
Qed.

Lemma throttle_pending delay t0 calls id n tp ap log :
  (0 < delay < 2 ^ 31)%Z → t0 ≠ 0%Z → (tp < t0 + delay)%Z → (t0 <= tp)%Z →
  chronological (Event tp ap :: calls) = true →
  forallb (λ c, (ev_time c <? t0 + delay)%Z) calls = true →
  throttle_from delay calls
    (Loop tp [Timer id (tp + delay) (ap, tp)] n)
    (ThrottleClosure (Some t0) (Some id) log)
  = log ++ match last (Event tp ap :: calls) with
           | Some c => [delayed delay c]
           | None => []
           end.
Proof.
  intros Hd Ht0. revert id n tp ap log.
  induction calls as [|[t a] rest IH]; intros id n tp ap log Htp Hle Hchr Hin.
  - unfold throttle_from. cbn [throttle_calls]. by rewrite settle_fires.
  - apply chronological_cons in Hchr as [Hle' Hchr]. simpl in Hle'.
    cbn [forallb ev_time] in Hin. apply andb_true_iff in Hin as [Ht Hin].
    apply Z.ltb_lt in Ht.
    erewrite throttle_from_cons;
      [|apply advance_waits; cbn [ev_time]; lia
       |apply throttled_rearms; [done|done|done|right; eauto]].
    cbn [ev_time ev_args].
    rewrite (IH n (Pos.succ n) t a log Ht ltac:(lia) Hchr Hin). done.
Qed.

(** X16.  For a positive delay below 2^31, a burst of calls that all
    fall inside one interval runs the function twice at most: at once
    for the first call, and once more
    [delay] after the last call of the burst, with the arguments of that
    last call.  The calls in between are dropped. *)
Theorem throttle_burst (delay t0 : Z) (a0 : list value) (rest : list event) :
  (0 < delay < 2 ^ 31)%Z → t0 ≠ 0%Z →
  chronological (Event t0 a0 :: rest) = true →
  forallb (λ c, (ev_time c <? t0 + delay)%Z) rest = true →
  throttle_run delay (Event t0 a0 :: rest)
  = Event t0 a0 :: match last rest with
                   | Some c => [delayed delay c]
                   | None => []
                   end.
Proof.
  intros Hd Ht0 Hchr Hin.
  change (throttle_run delay (Event t0 a0 :: rest))
    with (throttle_from delay (Event t0 a0 :: rest) loop_start throttle).
  rewrite (throttle_from_cons delay _ rest _ _ (Loop t0 [] 1) throttle
             (Loop t0 [] 1) (ThrottleClosure (Some t0) None [Event t0 a0]));
    [|apply advance_idle|done].
  destruct rest as [|[t a] rest']; [done|].
  apply chronological_cons in Hchr as [Hle Hchr]. simpl in Hle.
  cbn [forallb ev_time] in Hin. apply andb_true_iff in Hin as [Ht Hin].
  apply Z.ltb_lt in Ht.
  erewrite throttle_from_cons;
    [|apply advance_idle|apply throttled_rearms; [done|done|done|by left]].
  cbn [ev_time ev_args].
  rewrite (throttle_pending delay t0 rest' 1%positive 2%positive t a _ Hd Ht0 Ht Hle Hchr Hin).
  done.
Qed.

Lemma throttle_burst_witness :
  (0 < 100 < 2 ^ 31)%Z ∧ 1000%Z ≠ 0%Z ∧
  chronological [Event 1000 []; Event 1000 [VNull]; Event 1040 [VBool true]] = true ∧
  throttle_run 100 [Event 1000 []; Event 1000 [VNull]; Event 1040 [VBool true]]
  = [Event 1000 []; Event 1140 [VBool true]].
Proof.
  split; [lia|]. split; [lia|]. split; [reflexivity|].
  exact (throttle_burst 100 1000 [] [Event 1000 [VNull]; Event 1040 [VBool true]]
           ltac:(lia) ltac:(lia) eq_refl eq_refl).
Defined.

(** ** The hooks over the life of an instance *)

Lemma useConstant_unsettled init fb calls :
  fb = fiber_mount
  ∨ slots fb !! 0 = Some (RefSlot 1) ∧ ToBoolean (ref_current fb 1) = false →
  ∃ fb', useConstant init (fb, calls) = (init calls, (fb', S calls))
         ∧ slots fb' !! 0 = Some (RefSlot 1)
         ∧ refs fb' !! 1%positive = Some (init calls).
Proof.
  intros [->|[Hs Hv]].
  - eexists. split; [reflexivity|]. split; [done|].
    cbn [ref_assign refs]. apply lookup_insert_eq.
  - exists (ref_assign 1 (init calls) fb).
    unfold useConstant, useRef. rewrite Hs, Hv. cbn [negb].
    unfold ref_current at 1. cbn [ref_assign refs slots].
    rewrite lookup_insert_eq. done.
Qed.

Lemma useConstant_renders_settled init v m fb calls :
  slots fb !! 0 = Some (RefSlot 1) → refs fb !! 1%positive = Some v →
  ToBoolean v = true →
  useConstant_renders init m (fb, calls) = (replicate m v, (fb, calls)).
Proof.
  intros Hs Hr Hv. induction m as [|m IH]; [done|].
  cbn [useConstant_renders]. rewrite (useConstant_settled init v) by done.
  by rewrite IH.
Qed.

Lemma useConstant_renders_searching init m k calls fb :
  fb = fiber_mount
  ∨ slots fb !! 0 = Some (RefSlot 1) ∧ ToBoolean (ref_current fb 1) = false →
  (∀ i, i < k → ToBoolean (init (calls + i)) = false) →
  ToBoolean (init (calls + k)) = true →
  (useConstant_renders init (S k + m) (fb, calls)).1
  = (init <$> seq calls (S k)) ++ replicate m (init (calls + k))
  ∧ (useConstant_renders init (S k + m) (fb, calls)).2.2 = calls + S k.
Proof.
  revert calls fb. induction k as [|k IH]; intros calls fb Hfb Hfalsy Htruthy.
  - destruct (useConstant_unsettled init fb calls Hfb) as (fb' & Heq & Hs & Hr).
    cbn [Nat.add useConstant_renders]. rewrite Heq.
    rewrite Nat.add_0_r in Htruthy.
    rewrite (useConstant_renders_settled init (init calls)) by done.
    rewrite Nat.add_0_r. split; [done|]. cbn [snd]. lia.
  - destruct (useConstant_unsettled init fb calls Hfb) as (fb' & Heq & Hs & Hr).
    change (S (S k) + m) with (S (S k + m)).
    cbn [useConstant_renders]. rewrite Heq.
    destruct (IH (S calls) fb') as [Hvs Hcalls].
    + right. split; [done|]. unfold ref_current. rewrite Hr. cbn [default].
      specialize (Hfalsy 0 ltac:(lia)). by rewrite Nat.add_0_r in Hfalsy.
    + intros i Hi. replace (S calls + i) with (calls + S i) by lia.
      apply Hfalsy. lia.
    + by replace (S calls + k) with (calls + S k) by lia.
    + destruct (useConstant_renders init (S k + m) (fb', S calls)) as [vs st].
      cbn [fst snd] in *. rewrite Hvs, Hcalls. split; [|lia].
      replace (S calls + k) with (calls + S k) by lia. done.
Qed.

(** X17.  [useConstant] calls [init] on every render until a result is
    truthy, and never again: when the results of the first [j] calls
    are falsy and the next one is truthy, the renders return the
    results of these [j + 1] calls in turn and from then on the truthy
    one, and [init] has run [j + 1] times, however many renders
    follow. *)
Theorem useConstant_until_truthy (init : nat → value) (j m : nat) :
  (∀ i, i < j → ToBoolean (init i) = false) →
  ToBoolean (init j) = true →
  (useConstant_renders init (S j + m) (fiber_mount, 0)).1
  = (init <$> seq 0 (S j)) ++ replicate m (init j)
  ∧ (useConstant_renders init (S j + m) (fiber_mount, 0)).2.2 = S j.
Proof.
  intros Hfalsy Htruthy.
  apply (useConstant_renders_searching init m j 0 fiber_mount); auto.
Qed.

Lemma useConstant_until_truthy_witness :
  (useConstant_renders counting_init 5 (fiber_mount, 0)).1
  = [VNum (num 0); VNum (num 1); VNum (num 1); VNum (num 1); VNum (num 1)]
  ∧ (useConstant_renders counting_init 5 (fiber_mount, 0)).2.2 = 2.
Proof.
  apply (useConstant_until_truthy counting_init 1 3).
  - intros i Hi. assert (i = 0) as -> by lia. reflexivity.
  - reflexivity.
Defined.

Lemma useLatestRef_rerender v fb :
  slots fb !! 0 = Some (RefSlot 1) →
  ∃ fb', useLatestRef 0 v fb = (1%positive, fb')
         ∧ slots fb' !! 0 = Some (RefSlot 1) ∧ ref_current fb' 1 = v.
Proof.
  intros Hs. unfold useLatestRef, useRef. rewrite Hs.
  eexists. split; [reflexivity|]. split; [done|].
  unfold ref_current, ref_assign. cbn [refs]. by rewrite lookup_insert_eq.
Qed.

Lemma useLatestRef_renders_stable values fb :
  slots fb !! 0 = Some (RefSlot 1) →
  Forall (λ r, r = 1%positive) (useLatestRef_renders values fb).1
  ∧ slots (useLatestRef_renders values fb).2 !! 0 = Some (RefSlot 1)
  ∧ ∀ v, last values = Some v →
         ref_current (useLatestRef_renders values fb).2 1 = v.
Proof.
  revert fb. induction values as [|v values IH]; intros fb Hs.
  - split; [constructor|]. split; [done|]. by intros ? [=].
  - destruct (useLatestRef_rerender v fb Hs) as (fb' & Heq & Hs' & Hcur).
    cbn [useLatestRef_renders]. rewrite Heq.
    destruct (IH fb' Hs') as (Hrefs & Hslots & Hlast).
    destruct (useLatestRef_renders values fb') as [rs fb2] eqn:Hrs.
    cbn [fst snd] in *. split; [by constructor|]. split; [done|].
    intros w. destruct values as [|v' values'].
    + intros [= <-]. cbn [useLatestRef_renders] in Hrs. by injection Hrs as <- <-.
    + intros Hw. by apply Hlast.
Qed.

(** X18.  [useLatestRef] hands out one and the same ref object on
    every render of an instance, and after each render the ref holds
    the value that render was given. *)
Theorem useLatestRef_tracks_latest (values : list value) (v : value) :
  ∃ ref : positive,
    Forall (λ r, r = ref) (useLatestRef_renders (values ++ [v]) fiber_mount).1
    ∧ ref_current (useLatestRef_renders (values ++ [v]) fiber_mount).2 ref = v.
Proof.
  exists 1%positive.
  destruct (values ++ [v]) as [|v0 rest] eqn:Hall; [by destruct values|].
  assert (last (v0 :: rest) = Some v) as Hlast
    by (rewrite <- Hall; apply last_snoc).
  cbn [useLatestRef_renders].
  assert (useLatestRef 0 v0 fiber_mount
          = (1%positive, Fiber [RefSlot 1] (<[1%positive := v0]> (<[1%positive := VUndefined]> ∅)) 2))
    as -> by done.
  set (fb' := Fiber _ _ _).
  destruct (useLatestRef_renders_stable rest fb' eq_refl) as (Hrefs & _ & Hl).
  destruct (useLatestRef_renders rest fb') as [rs fb2] eqn:Hrs.
  cbn [fst snd] in *. split; [by constructor|].
  destruct rest as [|v1 rest'].
  - cbn [useLatestRef_renders] in Hrs. injection Hrs as <- <-.
    injection Hlast as <-. unfold ref_current, fb'. cbn [refs].
    by rewrite lookup_insert_eq.
  - by apply Hl.
Qed.

Lemma useLatestFunc_renders_length funcs fb :
  length (useLatestFunc_renders funcs fb).1 = length funcs.
Proof.
  revert fb. induction funcs as [|f funcs IH]; intros fb; [done|].
  cbn [useLatestFunc_renders]. destruct (useLatestFunc f fb) as [r fb1].
  specialize (IH fb1). destruct (useLatestFunc_renders funcs fb1) as [rs fb2].
  simpl in *. by rewrite IH.
Qed.

Lemma useLatestFunc_renders_mount funcs func :
  (∀ c, Some c ∈ (useLatestFunc_renders (funcs ++ [func]) fiber_mount).1 →
        c = first_apply)
  ∧ ref_current (useLatestFunc_renders (funcs ++ [func]) fiber_mount).2 1 = func.
Proof.
  destruct (funcs ++ [func]) as [|f0 rest] eqn:Hall; [by destruct funcs|].
  assert (last (f0 :: rest) = Some func) as Hlast
    by (rewrite <- Hall; apply last_snoc).
  destruct (useLatestFunc_mount f0) as (fb' & Heq & Hs' & Hcur).
  cbn [useLatestFunc_renders]. rewrite Heq.
  destruct (useLatestFunc_renders_stable rest fb' Hs') as (Houts & _ & Hl).
  pose proof (useLatestFunc_renders_length rest fb') as Hlen.
  destruct (useLatestFunc_renders rest fb') as [rs fb2] eqn:Hrs.
  cbn [fst snd] in *. split.
  - intros c [Hc|Hc]%elem_of_cons.
    + destruct (ToBoolean f0); [by injection Hc as ->|done].
    + apply list_elem_of_lookup_1 in Hc as [i Hi].
      destruct (lookup_lt_is_Some_2 rest i) as [v Hv].
      { rewrite <- Hlen. by eapply lookup_lt_Some. }
      rewrite (Houts i v Hv) in Hi. injection Hi as Hi.
      destruct (ToBoolean v); [by injection Hi as <-|done].
  - destruct rest as [|f1 rest'].
    + cbn [useLatestFunc_renders] in Hrs. injection Hrs as <- <-.
      by injection Hlast as <-.
    + by apply Hl.
Qed.

(** X19.  A call of the function [useLatestFunc] returned reaches
    whatever the latest render was given: it calls that value when it is
    a function, and throws a TypeError when it is not, so a function
    kept from an earlier render throws once a render has passed
    [undefined]. *)
Theorem useLatestFunc_call_after_render (funcs : list value) (func : value)
    (args : list value) (c : closure) :
  Some c ∈ (useLatestFunc_renders (funcs ++ [func]) fiber_mount).1 →
  closure_call (useLatestFunc_renders (funcs ++ [func]) fiber_mount).2 c args
  = match func with
    | VFun f => Calls f args
    | _ => TypeError
    end.
Proof.
  intros Hc. destruct (useLatestFunc_renders_mount funcs func) as (Happly & Hcur).
  rewrite (Happly c Hc). unfold closure_call. cbn [clo_ref first_apply].
  rewrite Hcur. by destruct func.
Qed.

Lemma useLatestFunc_call_after_render_witness :
  Some first_apply
  ∈ (useLatestFunc_renders ([VFun 7%positive] ++ [VUndefined]) fiber_mount).1 ∧
  closure_call (useLatestFunc_renders ([VFun 7%positive] ++ [VUndefined]) fiber_mount).2
               first_apply [] = TypeError.
Proof.
  assert (Some first_apply
          ∈ (useLatestFunc_renders ([VFun 7%positive] ++ [VUndefined]) fiber_mount).1)
    as Hin by (left).
  split; [exact Hin|].
  exact (useLatestFunc_call_after_render [VFun 7%positive] VUndefined [] first_apply Hin).
Defined.

(** ** isEquals: what it sees and what it does not *)

Lemma strict_equals_sym x y : strict_equals x y = strict_equals y x.
Proof.
  destruct x, y; simpl; try done.
  - by destruct b, b0.
  - unfold num_eq, SFeqb. rewrite (SFcompare_antisym n n0).
    by destruct (SFcompare n n0) as [[]|].
  - apply Z.eqb_sym.
  - apply bool_decide_ext. split; congruence.
  - apply Pos.eqb_sym.
  - apply Pos.eqb_sym.
  - apply Pos.eqb_sym.
Qed.

Lemma isEquals_not_both_objects fuel (h : heap) x y :
  (∀ l, x ≠ VObj l) ∨ (∀ l, y ≠ VObj l) →
  isEquals (S fuel) h x y = Some (strict_equals x y).
Proof.
  intros Hxy. cbn [isEquals]. destruct (strict_equals x y) eqn:Heq; [done|].
  destruct x, y; simpl; try done.
  all: destruct Hxy as [Hx|Hy]; [by destruct (Hx l)|by destruct (Hy l0)].
Qed.

(** X20.  As soon as one argument is not an object ([null] included)
    [isEquals] is [===]: it does not look into the heap, it takes [+0]
    and [-0] for equal and NaN for different from itself. *)
Theorem isEquals_strict_on_primitives (fuel : nat) (h : heap) (x y : value) :
  (∀ l, x ≠ VObj l) ∨ (∀ l, y ≠ VObj l) →
  isEquals (S fuel) h x y = Some (strict_equals x y).
Proof. apply isEquals_not_both_objects. Qed.

Lemma isEquals_strict_on_primitives_witness :
  ((∀ l, VNum (num 0) ≠ VObj l) ∨ (∀ l, VNum (S754_zero true) ≠ VObj l)) ∧
  isEquals 1 ∅ (VNum (num 0)) (VNum (S754_zero true)) = Some true.
Proof.
  assert ((∀ l, VNum (num 0) ≠ VObj l) ∨ (∀ l, VNum (S754_zero true) ≠ VObj l))
    as H by (left; intros l; discriminate).
  split; [exact H|].
  exact (isEquals_strict_on_primitives 0 ∅ (VNum (num 0)) (VNum (S754_zero true)) H).
Defined.

Lemma every_key_ext check1 check2 keys :
  (∀ k, k ∈ keys → check1 k = check2 k) →
  every_key check1 keys = every_key check2 keys.
Proof.
  induction keys as [|k keys IH]; intros H; [done|]. simpl.
  rewrite (H k) by left. rewrite IH; [done|]. intros ??. apply H. by right.
Qed.

Lemma isEquals_reflexive_object fuel (h : heap) l :
  isEquals (S fuel) h (VObj l) (VObj l) = Some true.
Proof. cbn [isEquals strict_equals]. by rewrite Pos.eqb_refl. Qed.

(** X21.  Of its first argument [isEquals] sees the enumerable
    string-keyed own properties and nothing else: two objects that
    agree on those compare alike with any third value, whatever their
    prototypes, their being arrays or not, their symbol keys and their
    hidden properties.  In particular two objects without such
    properties are always equal. *)
Theorem isEquals_sees_enumerable_keys_only (fuel : nat) (h : heap)
    (lx lx' : loc) (y : value) :
  Object_keys h lx = Object_keys h lx' →
  (∀ k, k ∈ Object_keys h lx → Reflect_get h lx k = Reflect_get h lx' k) →
  y ≠ VObj lx → y ≠ VObj lx' →
  isEquals fuel h (VObj lx) y = isEquals fuel h (VObj lx') y
  ∧ (Object_keys h lx = [] →
     isEquals (S fuel) h (VObj lx) (VObj lx') = Some true).
Proof.
  intros Hkeys Hget Hy Hy'. split.
  - destruct fuel as [|fuel]; [done|].
    destruct y as [| | | | | | | |ly]; try done.
    rewrite !isEquals_objects by congruence. rewrite <- Hkeys.
    destruct (negb _); [done|]. apply every_key_ext. intros k Hk.
    by rewrite (Hget k Hk).
  - intros Hnil. destruct (decide (lx = lx')) as [->|Hne].
    + apply isEquals_reflexive_object.
    + rewrite isEquals_objects by done. by rewrite <- Hkeys, Hnil.
Qed.

Lemma isEquals_sees_enumerable_keys_only_witness :
  Object_keys keyless_heap 3%positive = Object_keys keyless_heap 4%positive ∧
  isEquals 1 keyless_heap (VObj 3%positive) (VObj 4%positive) = Some true.
Proof.
  split; [reflexivity|].
  apply (isEquals_sees_enumerable_keys_only 0 keyless_heap 3%positive 4%positive VNull);
    [reflexivity|intros k Hk; by apply elem_of_nil in Hk|discriminate..|reflexivity].
Defined.

(** ** isEquals on plain data *)

Lemma every_key_Some_true check keys :
  every_key check keys = Some true → ∀ k, k ∈ keys → check k = Some true.
Proof.
  induction keys as [|k0 keys IH]; simpl; intros Hall k Hk.
  { by apply elem_of_nil in Hk. }
  destruct (check k0) as [[]|] eqn:Hk0; try done.
  apply elem_of_cons in Hk as [->|Hk]; [done|by apply IH].
Qed.

Lemma Object_keys_all_enumerable (ps : list (key * prop)) :
  Forall (λ kp : key * prop, p_enumerable kp.2 = true ∧ is_string_key kp.1 = true) ps →
  omap (λ kp : key * prop,
          match kp.1 with
          | KStr _ => if p_enumerable kp.2 then Some kp.1 else None
          | KSym _ => None
          end) ps = ps.*1.
Proof.
  induction 1 as [|[k p] ps [Hen Hstr] _ IH]; [done|].
  csimpl in *. destruct k; [|done]. rewrite Hen. csimpl. by f_equal.
Qed.

Section PlainData.
Variable h : heap.
Hypothesis Hplain : plain_data h.

Lemma plain_obj_at l : data_object h (obj_at h l).
Proof.
  unfold obj_at. destruct (h !! l) as [o|] eqn:Ho; simpl.
  - by apply (Hplain l o).
  - split; constructor.
Qed.

Lemma plain_Object_keys l : Object_keys h l = (o_props (obj_at h l)).*1.
Proof.
  destruct (plain_obj_at l) as [_ Hall]. unfold Object_keys.
  apply Object_keys_all_enumerable. eapply Forall_impl; [exact Hall|].
  intros kp (? & ? & _). done.
Qed.

Lemma plain_not_inherited l k l' :
  k ∈ Object_keys h l → chain_get k (o_proto (obj_at h l')) = None.
Proof.
  rewrite plain_Object_keys. intros ([k' p] & -> & Hin)%list_elem_of_fmap.
  destruct (plain_obj_at l) as [_ Hall]. rewrite Forall_forall in Hall.
  destruct (Hall _ Hin) as (_ & _ & Hnone). simpl in Hnone.
  unfold obj_at. destruct (h !! l') as [o'|] eqn:Ho'; simpl; [|done].
  specialize (Hnone l' o' Ho'). simpl in Hnone.
  destruct (chain_get k' (o_proto o')); [|done]. destruct Hnone. eauto.
Qed.

Lemma plain_Reflect_has l k l' :
  k ∈ Object_keys h l → Reflect_has h l' k = bool_decide (k ∈ Object_keys h l').
Proof.
  intros Hk. unfold Reflect_has, object_has.
  rewrite (plain_not_inherited l k l' Hk). rewrite orb_false_r.
  apply bool_decide_ext. rewrite own_value_is_Some. by rewrite plain_Object_keys.
Qed.

Lemma plain_Object_keys_NoDup l : NoDup (Object_keys h l).
Proof. rewrite plain_Object_keys. by destruct (plain_obj_at l). Qed.

Lemma nested_field n l k :
  nesting_within (S n) h (VObj l) = true → k ∈ Object_keys h l →
  nesting_within n h (Reflect_get h l k) = true.
Proof.
  intros Hx Hk. apply Object_keys_own, props_get_is_Some in Hk as [p Hp].
  unfold Reflect_get, object_get, own_value. rewrite Hp. simpl.
  apply props_get_elem_of in Hp. simpl in Hx.
  rewrite forallb_forall in Hx. apply (Hx (k, p)). by apply list_elem_of_In.
Qed.

(** One direction of the comparison of two different objects, given
    that the comparison of their fields can be turned around. *)
Lemma plain_every_key_turn n lx ly :
  nesting_within (S n) h (VObj lx) = true →
  nesting_within (S n) h (VObj ly) = true →
  length (Object_keys h lx) = length (Object_keys h ly) →
  (∀ x y, nesting_within n h x = true → nesting_within n h y = true →
          isEquals (S n) h x y = isEquals (S n) h y x) →
  every_key
    (λ k, if negb (Reflect_has h ly k) then Some false
          else isEquals (S n) h (Reflect_get h lx k) (Reflect_get h ly k))
    (Object_keys h lx) = Some true →
  every_key
    (λ k, if negb (Reflect_has h lx k) then Some false
          else isEquals (S n) h (Reflect_get h ly k) (Reflect_get h lx k))
    (Object_keys h ly) = Some true.
Proof.
  intros Hx Hy Hlen Hturn Hall.
  pose proof (every_key_Some_true _ _ Hall) as Hchecks. simpl in Hchecks.
  assert (∀ k, k ∈ Object_keys h lx →
               k ∈ Object_keys h ly
               ∧ isEquals (S n) h (Reflect_get h lx k) (Reflect_get h ly k)
                 = Some true) as Hfields.
  { intros k Hk. specialize (Hchecks k Hk).
    rewrite (plain_Reflect_has lx k ly Hk) in Hchecks.
    destruct (bool_decide (k ∈ Object_keys h ly)) eqn:Hin; [|done].
    by apply bool_decide_eq_true in Hin. }
  assert (Object_keys h lx ≡ₚ Object_keys h ly) as Hperm.
  { apply submseteq_length_Permutation; [|lia].
    apply NoDup_submseteq; [apply plain_Object_keys_NoDup|].
    intros k Hk. by apply Hfields. }
  apply every_key_true. intros k Hk.
  assert (k ∈ Object_keys h lx) as Hkx by by rewrite Hperm.
  rewrite (plain_Reflect_has ly k lx Hk), (bool_decide_eq_true_2 _ Hkx).
  cbn [negb]. rewrite Hturn; [by apply Hfields|by apply nested_field..].
Qed.

Lemma plain_checks_terminate n lx ly :
  nesting_within (S n) h (VObj lx) = true →
  ∃ b, every_key
         (λ k, if negb (Reflect_has h ly k) then Some false
               else isEquals (S n) h (Reflect_get h lx k) (Reflect_get h ly k))
         (Object_keys h lx) = Some b.
Proof.
  intros Hx. apply every_key_is_Some. intros k Hk.
  destruct (negb _); [eauto|].
  apply isEquals_finite_nesting. by apply nested_field.
Qed.

Lemma isEquals_turn n x y :
  nesting_within n h x = true → nesting_within n h y = true →
  isEquals (S n) h x y = isEquals (S n) h y x.
Proof.
  revert x y. induction n as [|n IH]; intros x y Hx Hy.
  { rewrite !isEquals_not_both_objects, strict_equals_sym; [done|..];
      left; intros l ->; done. }
  destruct x as [| | | | | | | |lx];
    try (rewrite !isEquals_not_both_objects, strict_equals_sym; [done|..];
         [right|left]; intros l; discriminate).
  destruct y as [| | | | | | | |ly];
    try (rewrite !isEquals_not_both_objects, strict_equals_sym; [done|..];
         [left|right]; intros l; discriminate).
  destruct (decide (lx = ly)) as [->|Hne]; [done|].
  rewrite !isEquals_objects by done.
  rewrite (Nat.eqb_sym (length (Object_keys h ly))).
  destruct (length (Object_keys h lx) =? length (Object_keys h ly)) eqn:Hlen;
    [|done].
  apply Nat.eqb_eq in Hlen. cbn [negb].
  destruct (plain_checks_terminate n lx ly Hx) as [b1 H1].
  destruct (plain_checks_terminate n ly lx Hy) as [b2 H2].
  rewrite H1, H2. f_equal. destruct b1, b2; try done.
  - pose proof (plain_every_key_turn n lx ly Hx Hy Hlen IH H1). congruence.
  - pose proof (plain_every_key_turn n ly lx Hy Hx (eq_sym Hlen) IH H2). congruence.
Qed.
End PlainData.

(** X22.  On plain data [isEquals] is symmetric: in a heap whose
    objects have distinct, enumerable, string-named properties, none of
    them inherited, and for two values that nest objects to a finite
    depth, [isEquals(x, y)] and [isEquals(y, x)] return the same
    boolean, whatever the order of the keys. *)
Theorem isEquals_symmetric (h : heap) (n : nat) (x y : value) :
  plain_data h →
  nesting_within n h x = true → nesting_within n h y = true →
  isEquals (S n) h x y = isEquals (S n) h y x
  ∧ ∃ b, isEquals (S n) h x y = Some b.
Proof.
  intros Hplain Hx Hy. split; [by apply isEquals_turn|].
  by apply isEquals_finite_nesting.
Qed.

Lemma isEquals_symmetric_witness :
  plain_data twin_heap ∧
  nesting_within 2 twin_heap (VObj 2%positive) = true ∧
  nesting_within 2 twin_heap (VObj 4%positive) = true ∧
  isEquals 3 twin_heap (VObj 2%positive) (VObj 4%positive)
  = isEquals 3 twin_heap (VObj 4%positive) (VObj 2%positive).
Proof.
  assert (plain_data twin_heap) as Hp by (by apply (bool_decide_eq_true_1 (plain_data twin_heap))).
  split; [exact Hp|]. split; [reflexivity|]. split; [reflexivity|].
  exact (proj1 (isEquals_symmetric twin_heap 2 (VObj 2%positive) (VObj 4%positive)
                  Hp eq_refl eq_refl)).
Defined.

(** ** throttle: which calls reach the function *)

Lemma next_due_elem {A} (q : list (timer A)) tm : next_due q = Some tm → tm ∈ q.
Proof.
  revert tm. induction q as [|t q IH]; intros tm; simpl; [done|].
  destruct (next_due q) as [tm'|].
  - destruct (tm_due tm' <? tm_due t)%Z; intros [= <-]; apply elem_of_cons; auto.
  - intros [= <-]. apply elem_of_cons; auto.
Qed.

Lemma next_due_None {A} (q : list (timer A)) : next_due q = None → q = [].
Proof.
  destruct q as [|t q]; [done|]. simpl.
  destruct (next_due q) as [tm'|]; [|done].
  by destruct (tm_due tm' <? tm_due t)%Z.
Qed.

Lemma run_due_throttle_inv seen n limit w c :
  throttle_inv seen w c →
  throttle_inv seen (run_due throttle_fire n limit w c).1
                    (run_due throttle_fire n limit w c).2.
Proof.
  revert w c. induction n as [|n IH]; intros w c Hinv; [done|].
  cbn [run_due]. destruct (next_due (queue w)) as [tm|] eqn:Hnext; [|done].
  destruct (match limit with Some t => (tm_due tm <=? t)%Z | None => true end);
    [|done].
  apply IH. destruct Hinv as [Hq Hlog]. rewrite Forall_forall in Hq.
  split.
  - cbn [clearTimeout queue next_id clock]. apply Forall_forall.
    intros tm' [_ Htm']%list_elem_of_filter. by apply Hq.
  - cbn [throttle_fire throttle_log]. apply Forall_app. split; [done|].
    constructor; [|constructor]. cbn [ev_args].
    by apply (Hq tm), next_due_elem.
Qed.

Lemma run_due_throttle_log n limit w c :
  throttle_log c `prefix_of` throttle_log (run_due throttle_fire n limit w c).2.
Proof.
  revert w c. induction n as [|n IH]; intros w c; [done|].
  cbn [run_due]. destruct (next_due (queue w)) as [tm|]; [|done].
  destruct (match limit with Some t => (tm_due tm <=? t)%Z | None => true end);
    [|done].
  etrans; [|apply IH]. cbn [throttle_fire throttle_log]. by apply prefix_app_r.
Qed.

Lemma advance_throttle_inv seen t w c :
  throttle_inv seen w c →
  throttle_inv seen (advance throttle_fire t w c).1 (advance throttle_fire t w c).2
  ∧ clock (advance throttle_fire t w c).1 = t.
Proof.
  intros Hinv. unfold advance.
  pose proof (run_due_throttle_inv seen (length (queue w)) (Some t) w c Hinv) as H.
  by destruct (run_due throttle_fire (length (queue w)) (Some t) w c) as [w' c'].
Qed.

Lemma advance_throttle_log t w c :
  throttle_log c `prefix_of` throttle_log (advance throttle_fire t w c).2.
Proof.
  unfold advance.
  pose proof (run_due_throttle_log (length (queue w)) (Some t) w c) as H.
  by destruct (run_due throttle_fire (length (queue w)) (Some t) w c) as [w' c'].
Qed.

Lemma cleared_throttle_inv seen oid w c :
  throttle_inv seen w c →
  throttle_inv seen (match oid with Some id => clearTimeout id w | None => w end) c.
Proof.
  intros Hinv. destruct oid as [id|]; [|done]. destruct Hinv as [Hq Hlog].
  split; [|done]. rewrite Forall_forall in Hq. apply Forall_forall.
  cbn [clearTimeout queue next_id]. intros tm [_ Htm]%list_elem_of_filter.
  by apply Hq.
Qed.

Lemma throttled_throttle_inv seen delay args w c :
  args ∈ seen → throttle_inv seen w c →
  throttle_inv seen (throttled delay args w c).1 (throttled delay args w c).2.
Proof.
  intros Hargs Hinv. unfold throttled.
  destruct (within_interval (previous c) (Date_now w) delay).
  - apply (cleared_throttle_inv seen (defineTimer c)) in Hinv.
    destruct Hinv as [Hq Hlog].
    set (w1 := match defineTimer c with Some id => clearTimeout id w | None => w end)
      in *.
    cbn [setTimeout fst snd]. split; [|done]. cbn [queue next_id].
    apply Forall_app. split.
    + eapply Forall_impl; [exact Hq|]. intros tm [? ?]. split; [done|lia].
    + constructor; [|constructor]. cbn [tm_payload tm_id fst]. split; [done|lia].
  - destruct Hinv as [Hq Hlog]. split; [done|]. cbn [fst snd throttle_log].
    apply Forall_app. split; [done|]. by constructor; [|constructor].
Qed.

Lemma throttled_throttle_log delay args w c :
  throttle_log c `prefix_of` throttle_log (throttled delay args w c).2.
Proof.
  unfold throttled. destruct (within_interval (previous c) (Date_now w) delay).
  - by destruct (setTimeout _ _ _).
  - cbn [snd throttle_log]. by apply prefix_app_r.
Qed.

Lemma throttle_calls_throttle_inv seen delay calls w c :
  Forall (λ call, ev_args call ∈ seen) calls → throttle_inv seen w c →
  throttle_inv seen (throttle_calls delay calls w c).1
                    (throttle_calls delay calls w c).2.
Proof.
  intros Hcalls. revert w c.
  induction Hcalls as [|call rest Hcall _ IH]; intros w c Hinv; [done|].
  cbn [throttle_calls].
  destruct (advance_throttle_inv seen (ev_time call) w c Hinv) as [Hinv1 _].
  destruct (advance throttle_fire (ev_time call) w c) as [w1 c1].
  pose proof (throttled_throttle_inv seen delay (ev_args call) w1 c1 Hcall Hinv1)
    as Hinv2.
  destruct (throttled delay (ev_args call) w1 c1) as [w2 c2]. by apply IH.
Qed.

Lemma throttle_calls_throttle_log delay calls w c :
  throttle_log c `prefix_of` throttle_log (throttle_calls delay calls w c).2.
Proof.
  revert w c. induction calls as [|call rest IH]; intros w c; [done|].
  cbn [throttle_calls].
  pose proof (advance_throttle_log (ev_time call) w c) as H1.
  destruct (advance throttle_fire (ev_time call) w c) as [w1 c1].
  pose proof (throttled_throttle_log delay (ev_args call) w1 c1) as H2.
  destruct (throttled delay (ev_args call) w1 c1) as [w2 c2].
  etrans; [exact H1|]. etrans; [exact H2|]. apply IH.
Qed.

Lemma throttle_calls_app delay calls1 calls2 w c :
  throttle_calls delay (calls1 ++ calls2) w c
  = throttle_calls delay calls2 (throttle_calls delay calls1 w c).1
                                (throttle_calls delay calls1 w c).2.
Proof.
  revert w c. induction calls1 as [|call rest IH]; intros w c; [done|].
  cbn [app throttle_calls].
  destruct (advance throttle_fire (ev_time call) w c) as [w1 c1].
  destruct (throttled delay (ev_args call) w1 c1) as [w2 c2]. apply IH.
Qed.

(** A pending timer whose handle no other pending timer shares fires
    when time runs on. *)
Lemma run_due_throttle_fires n w c tm :
  length (queue w) ≤ n → tm ∈ queue w →
  (∀ tm', tm' ∈ queue w → tm_id tm' = tm_id tm → tm' = tm) →
  Event (tm_due tm) (tm_payload tm).1
  ∈ throttle_log (run_due throttle_fire n None w c).2.
Proof.
  revert w c. induction n as [|n IH]; intros w c Hlen Hin Huniq.
  { destruct (queue w); [by apply elem_of_nil in Hin|simpl in Hlen; lia]. }
  cbn [run_due]. destruct (next_due (queue w)) as [tm0|] eqn:Hnext.
  2: { apply next_due_None in Hnext. rewrite Hnext in Hin.
       by apply elem_of_nil in Hin. }
  apply next_due_elem in Hnext.
  destruct (decide (tm_id tm0 = tm_id tm)) as [Heq|Hne].
  - rewrite (Huniq tm0 Hnext Heq).
    eapply elem_of_prefix; [|apply run_due_throttle_log].
    cbn [throttle_fire throttle_log]. apply elem_of_app. right.
    apply elem_of_cons. by left.
  - apply IH.
    + cbn [clearTimeout queue].
      pose proof (length_filter_lt
                    (λ tm1 : timer (list value * Z),
                       negb (tm_id tm1 =? tm_id tm0)%positive = true)
                    (queue w) tm0 Hnext) as Hlt.
      cbv beta in Hlt. rewrite Pos.eqb_refl in Hlt.
      specialize (Hlt ltac:(done)). lia.
    + cbn [clearTimeout queue]. apply list_elem_of_filter. split; [|done].
      apply negb_true_iff, Pos.eqb_neq. congruence.
    + cbn [clearTimeout queue]. intros tm' [_ Htm']%list_elem_of_filter.
      by apply Huniq.
Qed.

Lemma throttle_inv_start seen : throttle_inv seen loop_start throttle.
Proof. split; constructor. Qed.

(** X23.  [throttle] runs the first call at once, and never invents a
    call: the first invocation of the wrapped function is the first
    call, at its own time, and every invocation carries the arguments
    of one of the calls. *)
Theorem throttle_leading_edge (delay : Z) (calls : list event) :
  head (throttle_run delay calls) = head calls
  ∧ Forall (λ e, ev_args e ∈ ev_args <$> calls) (throttle_run delay calls).
Proof.
  split.
  - destruct calls as [|[t a] rest]; [done|].
    unfold throttle_run. cbn [throttle_calls ev_time ev_args].
    change (advance throttle_fire t loop_start throttle)
      with (Loop (A := list value * Z) t [] 1, throttle).
    cbv iota beta.
    assert (throttled delay a (Loop t [] 1) throttle
            = (Loop (A := list value * Z) t [] 1,
               ThrottleClosure (Some t) None [Event t a])) as -> by done.
    pose proof (throttle_calls_throttle_log delay rest (Loop t [] 1)
                  (ThrottleClosure (Some t) None [Event t a])) as H1.
    destruct (throttle_calls delay rest _ _) as [w c].
    pose proof (run_due_throttle_log (length (queue w)) None w c) as H2.
    unfold settle. cbn [snd] in H1.
    assert ([Event t a] `prefix_of` throttle_log (run_due throttle_fire (length (queue w)) None w c).2)
      as [k Hk] by (etrans; eauto).
    by rewrite Hk.
  - unfold throttle_run.
    pose proof (throttle_calls_throttle_inv (ev_args <$> calls) delay calls
                  loop_start throttle) as Hinv.
    destruct (throttle_calls delay calls loop_start throttle) as [w c].
    unfold settle.
    apply (run_due_throttle_inv _ (length (queue w)) None w c), Hinv.
    + apply Forall_forall. intros call Hcall. apply list_elem_of_fmap. eauto.
    + apply throttle_inv_start.
Qed.

(** X24.  [throttle] never drops the last call: for a positive delay
    below 2^31, the arguments of the last call reach the wrapped
    function, either at the time of the call or [delay] milliseconds
    later, however many timers earlier calls left behind. *)
Theorem throttle_last_call_runs (delay : Z) (calls : list event) (c : event) :
  (0 < delay < 2 ^ 31)%Z → last calls = Some c →
  Event (ev_time c) (ev_args c) ∈ throttle_run delay calls
  ∨ Event (ev_time c + delay) (ev_args c) ∈ throttle_run delay calls.
Proof.
  intros Hd [init ->]%last_Some. unfold throttle_run.
  rewrite throttle_calls_app.
  pose proof (throttle_calls_throttle_inv (ev_args <$> init ++ [c]) delay init
                loop_start throttle) as Hinv0.
  destruct (throttle_calls delay init loop_start throttle) as [w0 c0].
  cbn [fst snd throttle_calls] in *.
  assert (throttle_inv (ev_args <$> init ++ [c]) w0 c0) as Hinv.
  { apply Hinv0; [|apply throttle_inv_start]. apply Forall_forall.
    intros call Hcall. apply list_elem_of_fmap. exists call. split; [done|].
    apply elem_of_app. by left. }
  clear Hinv0.
  destruct (advance_throttle_inv _ (ev_time c) w0 c0 Hinv) as [Hinv1 Hclock].
  destruct (advance throttle_fire (ev_time c) w0 c0) as [w1 c1].
  cbn [fst snd] in *. unfold throttled, Date_now. rewrite Hclock.
  destruct (within_interval (previous c1) (ev_time c) delay).
  - right.
    apply (cleared_throttle_inv _ (defineTimer c1)) in Hinv1.
    assert (clock (match defineTimer c1 with
                   | Some id => clearTimeout id w1
                   | None => w1
                   end) = ev_time c) as Hclock1.
    { by destruct (defineTimer c1). }
    set (w2 := match defineTimer c1 with
               | Some id => clearTimeout id w1
               | None => w1
               end) in *.
    cbn [setTimeout]. unfold settle.
    rewrite Hclock1, timer_delay_in_range by lia.
    set (tm := Timer (next_id w2) (ev_time c + delay) (ev_args c, ev_time c)).
    apply (run_due_throttle_fires _ _ _ tm); [done| |].
    + cbn [queue]. apply elem_of_app. right. apply elem_of_cons. by left.
    + cbn [queue]. intros tm' [Hold|Hnew%list_elem_of_singleton]%elem_of_app Hid;
        [|done].
      destruct Hinv1 as [Hq _]. rewrite Forall_forall in Hq.
      destruct (Hq tm' Hold) as [_ Hlt]. rewrite Hid in Hlt. cbn [tm tm_id] in Hlt. lia.
  - left. unfold settle. eapply elem_of_prefix; [|apply run_due_throttle_log].
    cbn [throttle_log]. apply elem_of_app. right. apply elem_of_cons. by left.
Qed.

Lemma throttle_last_call_runs_witness :
  (0 < 100 < 2 ^ 31)%Z
  ∧ last [Event 1000 []; Event 1001 [VNull]; Event 1100 [VBool true]]
    = Some (Event 1100 [VBool true])
  ∧ (Event 1100 [VBool true]
     ∈ throttle_run 100 [Event 1000 []; Event 1001 [VNull]; Event 1100 [VBool true]]
     ∨ Event (1100 + 100) [VBool true]
       ∈ throttle_run 100 [Event 1000 []; Event 1001 [VNull]; Event 1100 [VBool true]]).
Proof.
  split; [lia|]. split; [reflexivity|].
  exact (throttle_last_call_runs 100
           [Event 1000 []; Event 1001 [VNull]; Event 1100 [VBool true]]
           (Event 1100 [VBool true]) ltac:(lia) eq_refl).
Defined.
